(** * FreeQuantumRandomGenerator: the entropy queue and the consumption engine

    A shallow embedding of [quantum_random.py], [pixel_processor.py],
    [hotbit_storage.py] and the producer loop of [capture_hotbits.py].

    - Python [int] is [Z].
    - The bit buffers ([QuantumRandom.current_bits], [PixelProcessor.bits])
      are Python strings that are only ever extended by [format(_, '024b')]
      and [str(pixel & 1)]; their alphabet is ['0'], ['1'] and ['-'].
    - The storage directory exists and is a finite map from file names to
      what the file holds, as [json.load] sees it; a file is named without
      the directory in front.
    - [python_random.choice] is an oracle carried by the world.
    - What is printed is left out.
    - A Python exception leaves the object as mutated so far, so a raised
      error carries the world it was raised in.
    - The [while True] loops of [randrange] and [randint] take the number of
      passes they may make; the loops of [getrandbits] and [get_hotbits] are
      given as many as they can need ([getrandbits_terminates],
      [hotbits_loop_terminates]). *)

From stdpp Require Import gmap strings list sorting.
From Stdlib Require Import ZArith QArith Lia.

Close Scope Q_scope.
Open Scope Z_scope.

(** ** Characters of a bit buffer *)

Inductive bchar : Type := c0 | c1 | cminus.

Global Instance bchar_eq_dec : EqDecision bchar.
Proof. solve_decision. Defined.

Definition is_digit (c : bchar) : bool :=
  match c with cminus => false | _ => true end.

Definition digit_val (c : bchar) : Z :=
  match c with c1 => 1 | _ => 0 end.

(** The value of a run of binary digits, most significant first. *)
Definition digits_val (ds : list bchar) : Z :=
  fold_left (fun acc d => 2 * acc + digit_val d) ds 0.

Definition all_digits (ds : list bchar) : bool := forallb is_digit ds.

(** [int(s, 2)] on a string over the buffer alphabet: an optional sign and
    then at least one digit; anything else is a [ValueError]. *)
Definition int_base2 (s : list bchar) : option Z :=
  match s with
  | [] => None
  | cminus :: ds =>
      match ds with
      | [] => None
      | _ => if all_digits ds then Some (- digits_val ds) else None
      end
  | _ => if all_digits s then Some (digits_val s) else None
  end.

(** Binary digits of a positive number, most significant first. *)
Fixpoint bin_pos (p : positive) : list bchar :=
  match p with
  | xH => [c1]
  | xO q => bin_pos q ++ [c0]
  | xI q => bin_pos q ++ [c1]
  end.

Definition zero_pad (width : nat) (ds : list bchar) : list bchar :=
  replicate (width - length ds)%nat c0 ++ ds.

(** [format(z, '024b')]: sign-aware zero padding to a total width of 24. *)
Definition format_024b (z : Z) : list bchar :=
  match z with
  | Z0 => zero_pad 24 [c0]
  | Zpos p => zero_pad 24 (bin_pos p)
  | Zneg p => cminus :: zero_pad 23 (bin_pos p)
  end.

(** [int.bit_length()]: the number of binary digits of the absolute value. *)
Definition bit_length (z : Z) : nat :=
  match z with
  | Z0 => O
  | Zpos p => Pos.size_nat p
  | Zneg p => Pos.size_nat p
  end.

(** ** Persisted sets *)

(** An element of the JSON array: an integer (a boolean is formatted as 0
    or 1), or a value that [format(_, '024b')] rejects. *)
Inductive json_item : Type :=
  | JInt (z : Z)
  | JOther.

(** What [json.load(file)["integerList"]] gives for a file: an iterable of
    items, or a failure (not JSON, no such key, not iterable). *)
Inductive file_content : Type :=
  | Unparsable
  | IntegerList (items : list json_item).

Inductive error : Type :=
  | PoolExhausted      (* ValueError("No HotBits available ...") *)
  | MalformedSet       (* json / KeyError / format errors on a stored file *)
  | InvalidLiteral     (* ValueError of int(s, 2) *)
  | AttributeError     (* float has no bit_length *)
  | ZeroDivisionError
  | IndexError.

Global Instance error_eq_dec : EqDecision error.
Proof. solve_decision. Defined.

(** ** The world: the storage directory, the oracle, and the object *)

Record World : Type := mkWorld {
  fs : gmap string file_content;   (* the storage directory *)
  prng : nat -> nat;               (* python_random, as an oracle *)
  tick : nat;                      (* how many oracle values were used *)
  current_bits : list bchar;       (* self.current_bits *)
  current_file : option string;    (* self.current_file, once assigned *)
}.

Inductive outcome (A : Type) : Type :=
  | Ok (a : A) (w : World)
  | Raise (e : error) (w : World)
  | Timeout.                       (* the model ran out of fuel *)

Arguments Ok {A} a w.
Arguments Raise {A} e w.
Arguments Timeout {A}.

Definition M (A : Type) : Type := World -> outcome A.

Definition ret {A} (a : A) : M A := fun w => Ok a w.
Definition raise {A} (e : error) : M A := fun w => Raise e w.
Definition bind {A B} (m : M A) (k : A -> M B) : M B :=
  fun w =>
    match m w with
    | Ok a w' => k a w'
    | Raise e w' => Raise e w'
    | Timeout => Timeout
    end.

Declare Scope py_scope.
Delimit Scope py_scope with py.
Notation "x <- c1 ;; c2" := (bind c1 (fun x => c2))
  (at level 100, c1 at next level, right associativity) : py_scope.
Notation "c1 ;;; c2" := (bind c1 (fun _ => c2))
  (at level 100, right associativity) : py_scope.
Open Scope py_scope.

Definition is_ok {A} (o : outcome A) : bool :=
  match o with Ok _ _ => true | _ => false end.

(** ** hotbit_storage.py *)

(** [name.endswith('.json')]. *)
Definition endswith (name suffix : string) : bool :=
  let n := String.length name in
  let k := String.length suffix in
  (k <=? n)%nat && String.eqb (String.substring (n - k) k name) suffix.

Definition is_json (name : string) : Prop := endswith name ".json" = true.

Global Instance is_json_dec name : Decision (is_json name).
Proof. unfold is_json. apply _. Defined.

(** [os.listdir(self.storage_directory)]. *)
Definition listdir (d : gmap string file_content) : list string :=
  (map_to_list d).*1.

(** [[f for f in os.listdir(...) if f.endswith('.json')]]. *)
Definition json_files (d : gmap string file_content) : list string :=
  filter is_json (listdir d).

(** [HotBitStorage.count_sets]. *)
Definition count_sets (d : gmap string file_content) : nat :=
  length (json_files d).

Definition set_filename (timestamp : string) : string :=
  "hotbits_" +:+ timestamp +:+ ".json".

(** [HotBitStorage.save_to_file]; [timestamp] is what
    [time.strftime('%Y%m%d_%H%M%S')] gives at the call. *)
Definition save_to_file (timestamp : string) (hotbits : list Z)
    (d : gmap string file_content) : gmap string file_content :=
  <[ set_filename timestamp := IntegerList (JInt <$> hotbits) ]> d.

(** ** pixel_processor.py *)

Inductive presult : Type :=
  | PDone (integers : list Z) (bits : list bchar)
  | PValueError (bits : list bchar)     (* int(chunk, 2) rejected the chunk *)
  | PTimeout.

(** The [while len(self.bits) >= chunk_size] loop of [get_hotbits]. *)
Fixpoint hotbits_loop (fuel chunk_size : nat) (bits : list bchar)
    (integers : list Z) : presult :=
  if (chunk_size <=? length bits)%nat then
    match fuel with
    | O => PTimeout
    | S fuel' =>
        let chunk := take chunk_size bits in
        match int_base2 chunk with
        | None => PValueError bits
        | Some integer =>
            hotbits_loop fuel' chunk_size (drop chunk_size bits)
              (if integer =? 0 then integers else integers ++ [integer])
        end
    end
  else PDone integers bits.

(** [PixelProcessor.get_hotbits] on [self.bits]; the result carries what
    is left in [self.bits]. *)
Definition get_hotbits (chunk_size : nat) (bits : list bchar) : presult :=
  hotbits_loop (S (length bits)) chunk_size bits [].

(** ** quantum_random.py *)

(** The [for integer in integers] loop of [load_next_file]: the buffer
    after it, and whether every item was accepted. *)
Fixpoint decode_items (items : list json_item) (acc : list bchar)
    : list bchar * bool :=
  match items with
  | [] => (acc, true)
  | JInt z :: rest => decode_items rest (acc ++ format_024b z)
  | JOther :: _ => (acc, false)
  end.

(** [python_random.choice(files)] on a non-empty list. *)
Definition choice_file (files : list string) (w : World) : string :=
  nth (prng w (tick w) mod length files)%nat files EmptyString.

(** [QuantumRandom.load_next_file]. *)
Definition load_next_file : M unit := fun w =>
  let files := json_files (fs w) in
  match files with
  | [] => Raise PoolExhausted w
  | _ :: _ =>
      let f := choice_file files w in
      let w1 := mkWorld (fs w) (prng w) (S (tick w)) (current_bits w) (Some f) in
      match fs w !! f with
      | None | Some Unparsable => Raise MalformedSet w1
      | Some (IntegerList items) =>
          let '(bits, ok) := decode_items items (current_bits w) in
          if ok
          then Ok tt (mkWorld (delete f (fs w)) (prng w) (S (tick w)) bits (Some f))
          else Raise MalformedSet
                 (mkWorld (fs w) (prng w) (S (tick w)) bits (Some f))
      end
  end.

(** [QuantumRandom.__init__]: an empty buffer, then one file is loaded. *)
Definition init (d : gmap string file_content) (r : nat -> nat) (t : nat)
    : outcome unit :=
  load_next_file (mkWorld d r t [] None).

(** The [while len(self.current_bits) < k] loop of [getrandbits]. *)
Fixpoint refill (fuel : nat) (k : nat) : M unit := fun w =>
  if (length (current_bits w) <? k)%nat then
    match fuel with
    | O => Timeout
    | S fuel' => (load_next_file ;;; refill fuel' k) w
    end
  else Ok tt w.

(** The two slices and [int(result_bits, 2)] that end [getrandbits]. *)
Definition take_bits (k : nat) : M Z := fun w =>
  let result_bits := take k (current_bits w) in
  let w' := mkWorld (fs w) (prng w) (tick w) (drop k (current_bits w))
                    (current_file w) in
  match int_base2 result_bits with
  | Some v => Ok v w'
  | None => Raise InvalidLiteral w'
  end.

(** [QuantumRandom.getrandbits].  Every pass of the loop removes a file, so
    one more pass than there are files always ends it. *)
Definition getrandbits (k : nat) : M Z := fun w =>
  (refill (S (count_sets (fs w))) k ;;; take_bits k) w.

(** The [while True] loop of [randrange]. *)
Fixpoint randrange_loop (fuel : nat) (start step range_size : Z) : M Z :=
  match fuel with
  | O => fun _ => Timeout
  | S fuel' =>
      rand_num <- getrandbits (bit_length (range_size - 1)) ;;
      if rand_num <? range_size
      then ret (start + rand_num * step)
      else randrange_loop fuel' start step range_size
  end.

(** [QuantumRandom.randrange(start, stop=None, step=1)]. *)
Definition randrange (fuel : nat) (start : Z) (stop : option Z) (step : Z)
    : M Z :=
  let '(start, stop) :=
    match stop with None => (0, start) | Some s => (start, s) end in
  if step =? 0 then raise ZeroDivisionError
  else randrange_loop fuel start step ((stop - start) / step).

(** [2 ** e]: an [int] for [e >= 0], a [float] otherwise. *)
Definition py_pow2 (e : Z) : option Z :=
  if e <? 0 then None else Some (2 ^ e).

(** The [while True] loop of [randint]; [max_power_of_two] is [None] when it
    is a float, whose [bit_length] does not exist. *)
Fixpoint randint_loop (fuel : nat) (a b : Z) (max_power_of_two : option Z)
    : M Z :=
  match fuel with
  | O => fun _ => Timeout
  | S fuel' =>
      match max_power_of_two with
      | None => raise AttributeError
      | Some p =>
          rand_num <- getrandbits (bit_length p) ;;
          if (a <=? rand_num) && (rand_num <=? b)
          then ret rand_num
          else randint_loop fuel' a b max_power_of_two
      end
  end.

(** [QuantumRandom.randint]. *)
Definition randint (fuel : nat) (a b : Z) : M Z :=
  let range_size := b - a + 1 in
  let max_power_of_two := py_pow2 (Z.of_nat (bit_length range_size) - 1) in
  randint_loop fuel a b max_power_of_two.

(** [seq[i]] for a Python list and an integer index. *)
Definition py_index {A} (seq : list A) (i : Z) : option A :=
  let n := Z.of_nat (length seq) in
  if (0 <=? i) && (i <? n) then seq !! Z.to_nat i
  else if (- n <=? i) && (i <? 0) then seq !! Z.to_nat (n + i)
  else None.

Definition index_or_raise {A} (seq : list A) (i : Z) : M A :=
  match py_index seq i with
  | Some x => ret x
  | None => raise IndexError
  end.

(** [QuantumRandom.choice]. *)
Definition choice {A} (fuel : nat) (seq : list A) : M A :=
  i <- randint fuel 0 (Z.of_nat (length seq) - 1) ;;
  index_or_raise seq i.

(** [[self.choice(seq) for _ in range(n)]]. *)
Fixpoint choices_n {A} (fuel : nat) (seq : list A) (n : nat) : M (list A) :=
  match n with
  | O => ret []
  | S n' =>
      x <- choice fuel seq ;;
      xs <- choices_n fuel seq n' ;;
      ret (x :: xs)
  end.

(** [QuantumRandom.choices(seq, k)]. *)
Definition choices {A} (fuel : nat) (seq : list A) (k : Z) : M (list A) :=
  choices_n fuel seq (Z.to_nat k).

(** [[seq[i] for i in idxs]]. *)
Fixpoint index_all {A} (seq : list A) (idxs : list Z) : M (list A) :=
  match idxs with
  | [] => ret []
  | i :: rest =>
      x <- index_or_raise seq i ;;
      xs <- index_all seq rest ;;
      ret (x :: xs)
  end.

(** [sorted] on a list of integers. *)
Definition sorted (l : list Z) : list Z := merge_sort Z.le l.

(** [range(n)] as a sequence. *)
Definition py_range (n : nat) : list Z := seqZ 0 (Z.of_nat n).

(** [QuantumRandom.sample]. *)
Definition sample {A} (fuel : nat) (seq : list A) (k : Z) : M (list A) :=
  idxs <- choices fuel (py_range (length seq)) k ;;
  index_all seq (sorted idxs).

(** ** capture_hotbits.py: the producer loop of [main]

    One step is either the test of the inner [while] (with its
    [time.sleep(10)] when the test holds) or the rest of one pass of the
    outer loop.  The frame source and the pixel sampling are inputs: a step
    is given the bits that [process_pixels] appends for the captured frame
    and the time stamp [save_to_file] would use, or a failure of the capture
    or of the processing, which the handlers of the loop turn into [break]. *)

Inductive pc : Type := AtPoll | AtCapture | Exited.

Record Producer : Type := mkProducer {
  p_dir : gmap string file_content;   (* the storage directory *)
  p_bits : list bchar;                (* processor.bits *)
  p_pc : pc;
}.

Inductive frame_input : Type :=
  | Frame (new_bits : list bool) (timestamp : string)
  | Failure.

Inductive action : Type :=
  | Slept (seconds : Z)                       (* time.sleep(10) of the inner loop *)
  | Resumed                                   (* the inner loop was left *)
  | Accumulated                               (* a frame processed, nothing saved *)
  | Enqueued (name : string) (hotbits : list Z)  (* storage.save_to_file *)
  | Stopped.

(** [str(pixel & 1)]. *)
Definition bit_char (b : bool) : bchar := if b then c1 else c0.

Definition producer_step (max_sets : Z) (i : frame_input) (p : Producer)
    : action * Producer :=
  match p_pc p with
  | AtPoll =>
      if Z.of_nat (count_sets (p_dir p)) >=? max_sets
      then (Slept 10, p)
      else (Resumed, mkProducer (p_dir p) (p_bits p) AtCapture)
  | AtCapture =>
      match i with
      | Failure => (Stopped, mkProducer (p_dir p) (p_bits p) Exited)
      | Frame new_bits timestamp =>
          let bits := p_bits p ++ (bit_char <$> new_bits) in
          if (24 * 100 <=? length bits)%nat then
            match get_hotbits 24 bits with
            | PDone hotbits rest =>
                (Enqueued (set_filename timestamp) hotbits,
                 mkProducer (save_to_file timestamp hotbits (p_dir p)) rest AtPoll)
            | PValueError rest => (Stopped, mkProducer (p_dir p) rest Exited)
            | PTimeout => (Stopped, mkProducer (p_dir p) bits Exited)
            end
          else (Accumulated, mkProducer (p_dir p) bits AtPoll)
      end
  | Exited => (Stopped, p)
  end.

(** The directory a call leaves behind. *)
Definition fs_after {A} (o : outcome A) (d : gmap string file_content)
    : gmap string file_content :=
  match o with
  | Ok _ w => fs w
  | Raise _ w => fs w
  | Timeout => d
  end.

(** Producer and consumer share the directory and nothing else: between two
    steps of the producer a consumer may call [load_next_file] any number
    of times. *)
Inductive sys_step (max_sets : Z) : Producer -> Producer -> Prop :=
  | step_producer i p :
      sys_step max_sets p (producer_step max_sets i p).2
  | step_consumer w p :
      fs w = p_dir p ->
      sys_step max_sets p
        (mkProducer (fs_after (load_next_file w) (p_dir p)) (p_bits p) (p_pc p)).

Inductive reachable (max_sets : Z) (p0 : Producer) : Producer -> Prop :=
  | reach_start : reachable max_sets p0 p0
  | reach_step p p' :
      reachable max_sets p0 p -> sys_step max_sets p p' ->
      reachable max_sets p0 p'.

(** The invariant of the producer: past the inner loop, the directory is
    below capacity. *)
Definition below_capacity (max_sets : Z) (p : Producer) : Prop :=
  p_pc p = AtCapture -> Z.of_nat (count_sets (p_dir p)) < max_sets.

(** ** The codec as the specification words it *)

(** The consecutive 24-bit chunks of a bit-string, a trailing partial chunk
    dropped. *)
Definition chunks24 (s : list bchar) : list (list bchar) :=
  reshape (replicate (length s / 24)%nat 24%nat) s.

Definition all_zero (chunk : list bchar) : bool :=
  forallb (fun c => bool_decide (c = c0)) chunk.

(** The bit-string with every all-zero chunk removed and the trailing
    partial chunk dropped. *)
Definition surviving_bits (s : list bchar) : list bchar :=
  concat (List.filter (fun chunk => negb (all_zero chunk)) (chunks24 s)).

(** [decode] of the specification: the loop of [load_next_file] on an empty
    buffer. *)
Definition decode (ints : list Z) : list bchar * bool :=
  decode_items (JInt <$> ints) [].

(** The world with another buffer. *)
Definition set_bits (w : World) (bits : list bchar) : World :=
  mkWorld (fs w) (prng w) (tick w) bits (current_file w).

(** ** Sample worlds *)

(** A processor buffer: the chunks of 5, 0 and 9 and two spare bits. *)
Definition bits_5_0_9 : list bchar :=
  format_024b 5 ++ format_024b 0 ++ format_024b 9 ++ [c1; c1].

(** A consumer whose buffer holds the given bits over an empty queue. *)
Definition world_of_bits (bits : list bchar) : World :=
  mkWorld ∅ (fun n => n) 0 bits None.

(** A directory with one well-formed set and a file that is not a set. *)
Definition dir_one : gmap string file_content :=
  {[ "hotbits_20240101_000000.json"%string := IntegerList [JInt 5; JInt 10];
     "README.txt"%string := Unparsable ]}.

Definition world_one : World := mkWorld dir_one (fun n => n) 0 [] None.

(** A directory at a capacity of two. *)
Definition dir_two : gmap string file_content :=
  {[ "hotbits_20240101_000000.json"%string := IntegerList [JInt 5; JInt 10];
     "hotbits_20240101_000001.json"%string := IntegerList [JInt 7] ]}.

Definition producer_full : Producer := mkProducer dir_two [] AtPoll.

(** A producer that has left the inner loop over an empty directory. *)
Definition producer_ready : Producer := mkProducer ∅ [] AtCapture.

(** ** More of quantum_random.py *)

(** The position a Python list index stands for, a negative index counting
    from the end; [None] is an [IndexError]. *)
Definition py_position (n : nat) (i : Z) : option nat :=
  if (0 <=? i) && (i <? Z.of_nat n) then Some (Z.to_nat i)
  else if (- Z.of_nat n <=? i) && (i <? 0) then Some (Z.to_nat (Z.of_nat n + i))
  else None.

(** The passes of [shuffle] for the indices [i] down to 1.  The list is
    mutated in place, so it is returned beside the outcome, as it is when
    the call ends or fails.  In [seq[i], seq[j] = seq[j], seq[i]] the right
    side is read first ([seq[j]], then [seq[i]]) and [seq[i]] is written
    before [seq[j]]. *)
Fixpoint shuffle_from {A} (fuel i : nat) (seq : list A) (w : World)
    : list A * outcome unit :=
  match i with
  | O => (seq, Ok tt w)
  | S i' =>
      match randint fuel 0 (Z.of_nat i) w with
      | Ok j w' =>
          match py_position (length seq) j with
          | Some jn =>
              match seq !! jn, seq !! i with
              | Some y, Some x =>
                  shuffle_from fuel i' (<[jn := x]> (<[i := y]> seq)) w'
              | _, _ => (seq, Raise IndexError w')
              end
          | None => (seq, Raise IndexError w')
          end
      | Raise e w' => (seq, Raise e w')
      | Timeout => (seq, Timeout)
      end
  end.

(** [QuantumRandom.shuffle]: [for i in reversed(range(1, len(seq)))]. *)
Definition shuffle {A} (fuel : nat) (seq : list A) (w : World)
    : list A * outcome unit :=
  shuffle_from fuel (length seq - 1)%nat seq w.

(** [QuantumRandom.random].  The 53 characters taken from the buffer give an
    integer below [2 ** 53] in absolute value, so the float division by
    [2 ** 53] is exact and the result is this rational. *)
Definition random : M Q :=
  n <- getrandbits 53 ;;
  ret (Qmake n 9007199254740992).

(** ** Well-formed pools *)

(** The integers of a set are unsigned: no sign reaches the buffer. *)
Definition wf_item (it : json_item) : Prop :=
  match it with
  | JInt z => 0 <= z
  | JOther => True
  end.

Definition wf_content (c : file_content) : Prop :=
  match c with
  | Unparsable => True
  | IntegerList items => Forall wf_item items
  end.

Definition wf_dir (d : gmap string file_content) : Prop :=
  map_Forall (fun _ c => wf_content c) d.

Definition wf_world (w : World) : Prop :=
  all_digits (current_bits w) = true /\ wf_dir (fs w).

(** The world a call leaves behind. *)
Definition world_after {A} (o : outcome A) (w : World) : World :=
  match o with
  | Ok _ w' => w'
  | Raise _ w' => w'
  | Timeout => w
  end.

(** What the producer writes: a list of integers that fit 24 bits, none of
    them zero. *)
Definition is_entropy_set (c : file_content) : Prop :=
  exists ints, c = IntegerList (JInt <$> ints)
               /\ Forall (fun z => 0 < z < 2 ^ 24) ints.

(** A directory with a set whose second element is not an integer. *)
Definition dir_bad_item : gmap string file_content :=
  {[ "hotbits_20240101_000003.json"%string :=
       IntegerList [JInt 5; JOther; JInt 10] ]}.

Close Scope Z_scope.

(** * Proofs *)

(** ** The storage directory *)

Lemma filter_submseteq_mono {A} (P : A → Prop) `{!∀ x, Decision (P x)}
    (l1 l2 : list A) :
  l1 ⊆+ l2 → filter P l1 ⊆+ filter P l2.
Proof.
  induction 1 as [|x l1 l2 _ IH|x y l|x l1 l2 _ IH|l1 l2 l3 _ IH1 _ IH2].
  - done.
  - rewrite !filter_cons. destruct (decide (P x)); [by constructor | done].
  - rewrite !filter_cons.
    destruct (decide (P x)), (decide (P y)); try done. by constructor.
  - rewrite filter_cons. destruct (decide (P x)); [by constructor | done].
  - by etrans.
Qed.

Section Directory.
Implicit Types (d : gmap string file_content) (f : string).

Lemma json_files_in d f :
  f ∈ json_files d ↔ is_json f ∧ is_Some (d !! f).
Proof.
  unfold json_files, listdir. rewrite list_elem_of_filter, list_elem_of_fmap.
  split.
  - intros [Hj [[g x] [-> Hin]]]. split; [done|].
    apply elem_of_map_to_list in Hin. by exists x.
  - intros [Hj [x Hx]]. split; [done|]. exists (f, x). split; [done|].
    by apply elem_of_map_to_list.
Qed.

Lemma json_files_delete d f x :
  d !! f = Some x → is_json f →
  json_files d ≡ₚ f :: json_files (delete f d).
Proof.
  intros Hf Hj. unfold json_files, listdir.
  rewrite <- (map_to_list_delete d f x Hf). simpl.
  rewrite filter_cons. by destruct (decide (is_json f)).
Qed.

Lemma count_sets_delete d f :
  f ∈ json_files d → count_sets d = S (count_sets (delete f d)).
Proof.
  intros [Hj [x Hx]]%json_files_in. unfold count_sets.
  by rewrite (json_files_delete d f x Hx Hj).
Qed.

Lemma count_sets_subseteq d d' : d' ⊆ d → (count_sets d' ≤ count_sets d)%nat.
Proof.
  intros Hsub. unfold count_sets, json_files, listdir.
  apply submseteq_length, filter_submseteq_mono, fmap_submseteq.
  by apply map_to_list_submseteq.
Qed.

Lemma json_files_singleton_delete d f :
  json_files d = [f] → json_files (delete f d) = [].
Proof.
  intros Hd. assert (Hin : f ∈ json_files d) by (rewrite Hd; set_solver).
  apply count_sets_delete in Hin. unfold count_sets in Hin.
  rewrite Hd in Hin. simpl in Hin.
  destruct (json_files (delete f d)); [done | simpl in Hin; lia].
Qed.

Lemma choice_file_in files w : files ≠ [] → choice_file files w ∈ files.
Proof.
  intros Hne. unfold choice_file. apply list_elem_of_In, nth_In.
  apply Nat.mod_upper_bound. destruct files; [done | simpl; lia].
Qed.

Lemma choice_file_singleton f w : choice_file [f] w = f.
Proof.
  unfold choice_file. change (length [f]) with 1%nat.
  by rewrite Nat.mod_1_r.
Qed.
End Directory.

(** ** [load_next_file] *)

Lemma decode_items_ints ints acc :
  decode_items (JInt <$> ints) acc = (acc ++ concat (format_024b <$> ints), true).
Proof.
  revert acc. induction ints as [|z ints IH]; intros acc; simpl.
  - by rewrite app_nil_r.
  - by rewrite IH, app_assoc.
Qed.

Lemma load_next_file_exhausted w :
  json_files (fs w) = [] → load_next_file w = Raise PoolExhausted w.
Proof. intros H. unfold load_next_file. by rewrite H. Qed.

Lemma load_next_file_good w ints :
  let f := choice_file (json_files (fs w)) w in
  json_files (fs w) ≠ [] →
  fs w !! f = Some (IntegerList (JInt <$> ints)) →
  load_next_file w =
    Ok tt (mkWorld (delete f (fs w)) (prng w) (S (tick w))
             (current_bits w ++ concat (format_024b <$> ints)) (Some f)).
Proof.
  intros f Hne Hf. unfold load_next_file.
  destruct (json_files (fs w)) as [|g gs] eqn:Hfiles; [done|].
  fold f. rewrite Hf, decode_items_ints. done.
Qed.

(** Whatever [load_next_file] does, it is one of four things. *)
Lemma load_next_file_cases w :
  (json_files (fs w) = [] ∧ load_next_file w = Raise PoolExhausted w) ∨
  (∃ w', load_next_file w = Raise MalformedSet w' ∧ fs w' = fs w
         ∧ json_files (fs w) ≠ []) ∨
  (∃ w' f, load_next_file w = Ok tt w' ∧ f ∈ json_files (fs w)
           ∧ fs w' = delete f (fs w)
           ∧ length (current_bits w) ≤ length (current_bits w'))%nat.
Proof.
  unfold load_next_file.
  destruct (json_files (fs w)) as [|g gs] eqn:Hfiles; [by left | right].
  set (f := choice_file (g :: gs) w).
  assert (Hin : f ∈ g :: gs) by by apply choice_file_in.
  destruct (fs w !! f) as [[|items]|]; [left; eauto | | left; eauto].
  destruct (decode_items items (current_bits w)) as [bits ok] eqn:Hdec.
  destruct ok; [right | left; eauto].
  eexists _, f. split; [done|]. split; [done|]. split; [done|]. simpl.
  clear -Hdec. revert Hdec. generalize (current_bits w) as acc.
  induction items as [|[z|] items IH]; intros acc Hdec; simpl in Hdec;
    [by inversion Hdec | | done].
  apply IH in Hdec. rewrite length_app in Hdec. lia.
Qed.

Lemma load_next_file_ok_count w u w' :
  load_next_file w = Ok u w' → count_sets (fs w) = S (count_sets (fs w')).
Proof.
  intros Hok. destruct (load_next_file_cases w) as [[_ H]|[(w1 & H & _)|(w1 & f & H & Hin & Hfs & _)]];
    rewrite H in Hok; try done.
  inversion Hok; subst. rewrite Hfs. by apply count_sets_delete.
Qed.

Lemma load_next_file_shrinks w : fs_after (load_next_file w) (fs w) ⊆ fs w.
Proof.
  destruct (load_next_file_cases w) as [[_ H]|[(w1 & H & Hfs & _)|(w1 & f & H & Hin & Hfs & _)]];
    rewrite H; simpl; [done | by rewrite Hfs | rewrite Hfs; apply delete_subseteq].
Qed.

(** ** [getrandbits] *)

Lemma refill_enough fuel k w :
  (k ≤ length (current_bits w))%nat → refill fuel k w = Ok tt w.
Proof.
  intros Hk. destruct fuel; simpl;
    by rewrite (proj2 (Nat.ltb_ge _ _) Hk).
Qed.

(** The loop of [getrandbits] always ends: it is never cut short by the
    fuel it is given in [getrandbits]. *)
Lemma refill_terminates fuel k w :
  (count_sets (fs w) < fuel)%nat → refill fuel k w ≠ Timeout.
Proof.
  revert w. induction fuel as [|fuel IH]; intros w Hlt; [lia|].
  simpl. destruct (length (current_bits w) <? k)%nat; [|done].
  unfold bind. destruct (load_next_file w) as [u w'| |] eqn:Hl; [|done|].
  - apply IH. apply load_next_file_ok_count in Hl. lia.
  - destruct (load_next_file_cases w) as [[_ H]|[(w1 & H & _)|(w1 & f & H & _)]];
      congruence.
Qed.

Lemma getrandbits_terminates k w : getrandbits k w ≠ Timeout.
Proof.
  unfold getrandbits, bind.
  assert (Ht : refill (S (count_sets (fs w))) k w ≠ Timeout)
    by (apply refill_terminates; lia).
  destruct (refill _ k w) as [u w'| |]; [|done|done].
  unfold take_bits. by destruct (int_base2 _).
Qed.

Lemma getrandbits_enough k w :
  (k ≤ length (current_bits w))%nat → getrandbits k w = take_bits k w.
Proof. intros Hk. unfold getrandbits, bind. by rewrite refill_enough. Qed.

(** ** The queue: taking a set *)

(** C1: [load_next_file] fails with [PoolExhausted] exactly when the
    directory holds no set.  Otherwise it picks one of the sets of the
    directory; when that file is a well-formed set, its integers are decoded
    onto the tail of the buffer and the file is gone from the directory when
    the call returns, so that there is one set fewer.  When the queue holds
    that one set only, the call that follows fails with [PoolExhausted]. *)
Theorem load_next_file_takes_once (w : World) :
  ((∃ w', load_next_file w = Raise PoolExhausted w') ↔ count_sets (fs w) = 0) ∧
  (count_sets (fs w) ≠ 0 →
     let f := choice_file (json_files (fs w)) w in
     (f ∈ json_files (fs w)) ∧
     (∀ ints, fs w !! f = Some (IntegerList (JInt <$> ints)) →
       ∃ w', load_next_file w = Ok tt w' ∧
             current_bits w' = current_bits w ++ concat (format_024b <$> ints) ∧
             fs w' = delete f (fs w) ∧
             (f ∉ json_files (fs w')) ∧
             count_sets (fs w) = S (count_sets (fs w')))) ∧
  (∀ f ints,
     json_files (fs w) = [f] →
     fs w !! f = Some (IntegerList (JInt <$> ints)) →
     ∃ w', load_next_file w = Ok tt w' ∧
           current_bits w' = current_bits w ++ concat (format_024b <$> ints) ∧
           count_sets (fs w') = 0 ∧
           load_next_file w' = Raise PoolExhausted w').
Proof.
  split; [|split].
  - unfold count_sets. split.
    + intros [w' Hr].
      destruct (load_next_file_cases w)
        as [[H _]|[(w1 & H & _)|(w1 & f & H & _)]]; [by rewrite H | |];
        rewrite H in Hr; discriminate.
    + intros Hz. exists w. apply load_next_file_exhausted.
      by destruct (json_files (fs w)).
  - intros Hne f.
    assert (Hfiles : json_files (fs w) ≠ []).
    { intros H. apply Hne. unfold count_sets. by rewrite H. }
    assert (Hin : f ∈ json_files (fs w)) by by apply choice_file_in.
    split; [done|]. intros ints Hf.
    eexists. split; [by apply load_next_file_good|]. simpl.
    split; [done|]. split; [done|]. split.
    + rewrite json_files_in, lookup_delete_eq. by intros [_ [? ?]].
    + by apply count_sets_delete.
  - intros f ints Hfiles Hf.
    assert (Hne : json_files (fs w) ≠ []) by by rewrite Hfiles.
    pose proof (load_next_file_good w ints Hne) as Hgood. simpl in Hgood.
    rewrite Hfiles, choice_file_singleton in Hgood.
    eexists. split; [by apply Hgood|]. simpl.
    pose proof (json_files_singleton_delete _ _ Hfiles) as Hnil.
    split; [done|]. split; [unfold count_sets; by rewrite Hnil|].
    by apply load_next_file_exhausted.
Qed.

Lemma load_next_file_takes_once_witness :
  ∃ w', load_next_file world_one = Ok tt w' ∧
        current_bits w' = format_024b 5 ++ format_024b 10 ∧
        count_sets (fs w') = 0 ∧
        load_next_file w' = Raise PoolExhausted w'.
Proof.
  destruct (load_next_file_takes_once world_one) as (_ & _ & H).
  destruct (H "hotbits_20240101_000000.json"%string [5; 10]%Z)
    as (w' & H1 & H2 & H3 & H4);
    [vm_compute; reflexivity | vm_compute; reflexivity |].
  exists w'. split; [exact H1|]. split; [|split; [exact H3 | exact H4]].
  rewrite H2. vm_compute. reflexivity.
Defined.

(** A file that does not parse stops the call with a decode error and stays
    in the directory. *)
Example load_next_file_unparsable :
  load_next_file (mkWorld {[ "broken.json"%string := Unparsable ]}
                    (fun n => n) 0 [c1] None)
    = Raise MalformedSet
        (mkWorld {[ "broken.json"%string := Unparsable ]}
           (fun n => n) 1 [c1] (Some "broken.json"%string)).
Proof. vm_compute. reflexivity. Qed.

(** C10: the constructor loads a set before any bit is asked for.  On a
    directory without sets it fails with [PoolExhausted]; otherwise it picks
    a set of the directory and, that file being well formed, the new object
    holds its decoded bits and the file has left the directory. *)
Theorem init_loads_at_once (d : gmap string file_content) (r : nat → nat)
    (t : nat) :
  (count_sets d = 0 →
     init d r t = Raise PoolExhausted (mkWorld d r t [] None)) ∧
  (count_sets d ≠ 0 →
     let f := choice_file (json_files d) (mkWorld d r t [] None) in
     (f ∈ json_files d) ∧
     (∀ ints, d !! f = Some (IntegerList (JInt <$> ints)) →
       init d r t =
         Ok tt (mkWorld (delete f d) r (S t)
                  (concat (format_024b <$> ints)) (Some f)) ∧
       count_sets d = S (count_sets (delete f d)))).
Proof.
  split.
  - intros Hz. unfold init. apply load_next_file_exhausted. simpl.
    unfold count_sets in Hz. by destruct (json_files d).
  - intros Hne f. unfold init.
    assert (Hfiles : json_files d ≠ []).
    { intros H. apply Hne. unfold count_sets. by rewrite H. }
    assert (Hin : f ∈ json_files d) by by apply choice_file_in.
    split; [done|]. intros ints Hf. split; [|by apply count_sets_delete].
    by rewrite (load_next_file_good (mkWorld d r t [] None) ints).
Qed.

Lemma init_loads_at_once_witness :
  init ∅ (fun n => n) 0 = Raise PoolExhausted (mkWorld ∅ (fun n => n) 0 [] None) ∧
  init dir_one (fun n => n) 0 =
    Ok tt (mkWorld (delete "hotbits_20240101_000000.json"%string dir_one)
             (fun n => n) 1 (format_024b 5 ++ format_024b 10 ++ [])
             (Some "hotbits_20240101_000000.json"%string)).
Proof.
  split.
  - apply (init_loads_at_once ∅ (fun n => n) 0). vm_compute. reflexivity.
  - destruct (init_loads_at_once dir_one (fun n => n) 0) as [_ H].
    assert (Hne : count_sets dir_one ≠ 0) by (vm_compute; discriminate).
    specialize (H Hne). cbv zeta in H. destruct H as [_ H].
    apply (H [5; 10]%Z). vm_compute. reflexivity.
Defined.

(** ** Extraction *)

(** C3: a queue of the single set [[5, 10]].  The constructor decodes it to
    the 48 bits of 5 and 10 and empties the queue; [getrandbits(24)] gives 5
    and then 10, and [getrandbits(1)] then fails with [PoolExhausted]. *)
Theorem scenario_five_ten (d : gmap string file_content) (r : nat → nat)
    (t : nat) (f : string) :
  json_files d = [f] →
  d !! f = Some (IntegerList [JInt 5; JInt 10]) →
  let after bits := mkWorld (delete f d) r (S t) bits (Some f) in
  let bits5 := replicate 21 c0 ++ [c1; c0; c1] in
  let bits10 := replicate 20 c0 ++ [c1; c0; c1; c0] in
  init d r t = Ok tt (after (bits5 ++ bits10)) ∧
  length (bits5 ++ bits10) = 48 ∧
  count_sets (delete f d) = 0 ∧
  getrandbits 24 (after (bits5 ++ bits10)) = Ok 5%Z (after bits10) ∧
  getrandbits 24 (after bits10) = Ok 10%Z (after []) ∧
  getrandbits 1 (after []) = Raise PoolExhausted (after []).
Proof.
  intros Hfiles Hf after bits5 bits10.
  pose proof (json_files_singleton_delete _ _ Hfiles) as Hnil.
  split; [|split; [done|split; [unfold count_sets; by rewrite Hnil|]]].
  - unfold init.
    rewrite (load_next_file_good (mkWorld d r t [] None) [5; 10]%Z);
      simpl; rewrite ?Hfiles, ?choice_file_singleton; done.
  - split; [|split].
    + by rewrite getrandbits_enough by (simpl; lia).
    + by rewrite getrandbits_enough by (simpl; lia).
    + unfold getrandbits, bind, count_sets. simpl. rewrite Hnil. simpl.
      unfold bind. rewrite load_next_file_exhausted; done.
Qed.

Lemma scenario_five_ten_witness :
  init dir_one (fun n => n) 0 =
    Ok tt (mkWorld (delete "hotbits_20240101_000000.json"%string dir_one)
             (fun n => n) 1
             (replicate 21 c0 ++ [c1; c0; c1] ++ replicate 20 c0 ++ [c1; c0; c1; c0])
             (Some "hotbits_20240101_000000.json"%string)).
Proof.
  refine (proj1 (scenario_five_ten dir_one (fun n => n) 0
                   "hotbits_20240101_000000.json"%string _ _));
    vm_compute; reflexivity.
Defined.

(** ** The codec *)

Section Codec.
Implicit Types (ds : list bchar) (p : positive).

Lemma digits_val_snoc ds c :
  digits_val (ds ++ [c]) = (2 * digits_val ds + digit_val c)%Z.
Proof. unfold digits_val. by rewrite fold_left_app. Qed.

Lemma all_digits_app ds1 ds2 :
  all_digits (ds1 ++ ds2) = all_digits ds1 && all_digits ds2.
Proof. apply forallb_app. Qed.

Lemma length_bin_pos p : length (bin_pos p) = Pos.size_nat p.
Proof.
  induction p as [p IH|p IH|]; simpl; rewrite ?length_app, ?IH; simpl; lia.
Qed.

Lemma pos_lt_pow2_size p : (Z.pos p < 2 ^ Z.of_nat (Pos.size_nat p))%Z.
Proof.
  induction p as [p IH|p IH|]; simpl Pos.size_nat;
    rewrite ?Nat2Z.inj_succ, ?Z.pow_succ_r by lia; lia.
Qed.

(** A run of digits is the binary numeral of its value behind leading
    zeros. *)
Lemma digits_shape ds :
  all_digits ds = true →
  (digits_val ds = 0%Z ∧ ds = replicate (length ds) c0) ∨
  (∃ p, digits_val ds = Zpos p ∧
        (length (bin_pos p) ≤ length ds)%nat ∧
        ds = replicate (length ds - length (bin_pos p)) c0 ++ bin_pos p).
Proof.
  induction ds as [|c ds IH] using rev_ind; intros Hd; [by left|].
  rewrite all_digits_app in Hd. apply andb_true_iff in Hd as [Hds Hc].
  rewrite digits_val_snoc, length_app. simpl length.
  destruct (IH Hds) as [[Hv Hz]|(p & Hv & Hlen & Hz)]; rewrite Hv.
  - destruct c; [left | right | done].
    + split; [done|]. rewrite Nat.add_1_r, replicate_S_end. by rewrite <- Hz.
    + exists 1%positive. split; [done|]. simpl. split; [lia|].
      replace (length ds + 1 - 1)%nat with (length ds) by lia.
      by rewrite <- Hz.
  - right. destruct c; [exists (p~0)%positive | exists (p~1)%positive | done];
      (split; [done|]); simpl; rewrite length_app; simpl;
      (split; [lia|]);
      replace (length ds + 1 - (length (bin_pos p) + 1))%nat
        with (length ds - length (bin_pos p))%nat by lia;
      by rewrite app_assoc, <- Hz.
Qed.

Lemma format_digits_val ds :
  all_digits ds = true → length ds = 24%nat →
  format_024b (digits_val ds) = ds.
Proof.
  intros Hd Hlen.
  destruct (digits_shape ds Hd) as [[Hv Hz]|(p & Hv & Hl & Hz)]; rewrite Hv.
  - rewrite Hz, Hlen. reflexivity.
  - simpl. unfold zero_pad. rewrite <- Hlen. by rewrite <- Hz.
Qed.

Lemma digits_val_zero ds :
  all_digits ds = true → (digits_val ds =? 0)%Z = all_zero ds.
Proof.
  intros Hd.
  destruct (digits_shape ds Hd) as [[Hv Hz]|(p & Hv & Hl & Hz)]; rewrite Hv.
  - rewrite Hz. simpl. symmetry. unfold all_zero.
    apply forallb_forall. intros c Hc%list_elem_of_In%elem_of_replicate.
    destruct Hc as [-> _]. done.
  - simpl. symmetry. apply not_true_iff_false. unfold all_zero.
    rewrite forallb_forall. intros Hall.
    assert (Hone : c1 ∈ ds).
    { rewrite Hz. apply elem_of_app. right. clear.
      induction p; simpl; set_solver. }
    apply list_elem_of_In, Hall in Hone. done.
Qed.

Lemma int_base2_digits ds :
  all_digits ds = true → ds ≠ [] → int_base2 ds = Some (digits_val ds).
Proof.
  intros Hd Hne. destruct ds as [|c ds]; [done|].
  destruct c; simpl in *; try done; by rewrite Hd.
Qed.

Lemma chunks24_step ds :
  (24 ≤ length ds)%nat →
  chunks24 ds = take 24 ds :: chunks24 (drop 24 ds).
Proof.
  intros Hlen. unfold chunks24. rewrite length_drop.
  replace (length ds / 24)%nat with (S ((length ds - 24) / 24))%nat; [done|].
  replace (length ds) with (1 * 24 + (length ds - 24))%nat at 2 by lia.
  rewrite Nat.div_add_l by lia. lia.
Qed.

Lemma chunks24_short ds : (length ds < 24)%nat → chunks24 ds = [].
Proof. intros Hlen. unfold chunks24. by rewrite Nat.div_small. Qed.

Lemma hotbits_loop_S fuel n ds acc :
  hotbits_loop (S fuel) n ds acc =
    if (n <=? length ds)%nat then
      match int_base2 (take n ds) with
      | None => PValueError ds
      | Some integer =>
          hotbits_loop fuel n (drop n ds)
            (if (integer =? 0)%Z then acc else acc ++ [integer])
      end
    else PDone acc ds.
Proof. reflexivity. Qed.

(** The loop of [get_hotbits], run to its end on a string of digits. *)
Lemma hotbits_loop_digits fuel ds acc :
  all_digits ds = true → (length ds < fuel)%nat →
  ∃ ints,
    hotbits_loop fuel 24 ds acc
      = PDone (acc ++ ints) (drop (24 * (length ds / 24)) ds) ∧
    concat (format_024b <$> ints) = surviving_bits ds ∧
    Forall (λ z, (0 < z < 2 ^ 24)%Z) ints.
Proof.
  revert ds acc. induction fuel as [|fuel IH]; intros ds acc Hd Hfuel; [lia|].
  rewrite hotbits_loop_S. destruct (24 <=? length ds)%nat eqn:Hlen.
  - apply Nat.leb_le in Hlen.
    assert (Hsplit : all_digits (take 24 ds) = true
                     ∧ all_digits (drop 24 ds) = true).
    { apply andb_true_iff. rewrite <- all_digits_app. by rewrite take_drop. }
    destruct Hsplit as [Htake Hdrop].
    assert (Hlt : length (take 24 ds) = 24%nat) by (rewrite length_take; lia).
    rewrite int_base2_digits; [|done|by destruct (take 24 ds)].
    destruct (IH (drop 24 ds)
                (if (digits_val (take 24 ds) =? 0)%Z then acc
                 else acc ++ [digits_val (take 24 ds)]) Hdrop)
      as (ints & Hloop & Hdec & Hrange); [rewrite length_drop; lia|].
    exists ((if (digits_val (take 24 ds) =? 0)%Z then []
             else [digits_val (take 24 ds)]) ++ ints).
    split; [|split].
    + rewrite Hloop, drop_drop, length_drop.
      replace (24 + 24 * ((length ds - 24) / 24))%nat
        with (24 * (length ds / 24))%nat.
      * by destruct (digits_val (take 24 ds) =? 0)%Z; rewrite <- ?app_assoc.
      * replace (length ds) with (1 * 24 + (length ds - 24))%nat at 1 by lia.
        rewrite Nat.div_add_l by lia. lia.
    + unfold surviving_bits. rewrite chunks24_step by done. simpl List.filter.
      rewrite <- digits_val_zero by done.
      destruct (digits_val (take 24 ds) =? 0)%Z; simpl; [done|].
      rewrite format_digits_val by done. f_equal. exact Hdec.
    + apply Forall_app. split; [|done].
      destruct (digits_val (take 24 ds) =? 0)%Z eqn:Hz; [done|].
      apply Forall_singleton. apply Z.eqb_neq in Hz.
      destruct (digits_shape _ Htake) as [[Hv _]|(p & Hv & Hl & _)]; [done|].
      rewrite Hv. split; [lia|].
      rewrite length_bin_pos, Hlt in Hl.
      eapply Z.lt_le_trans; [apply pos_lt_pow2_size|].
      apply Z.pow_le_mono_r; lia.
  - apply Nat.leb_gt in Hlen. exists []. rewrite app_nil_r.
    rewrite Nat.div_small, Nat.mul_0_r, drop_0 by done.
    split; [done|]. split; [|done].
    unfold surviving_bits. by rewrite chunks24_short.
Qed.

(** The loop of [get_hotbits] ends on every buffer and for every chunk
    size: an empty chunk is rejected by [int], any other shortens the
    buffer. *)
Lemma hotbits_loop_terminates fuel n ds acc :
  (length ds < fuel)%nat → hotbits_loop fuel n ds acc ≠ PTimeout.
Proof.
  revert ds acc. induction fuel as [|fuel IH]; intros ds acc Hfuel; [lia|].
  rewrite hotbits_loop_S. destruct (n <=? length ds)%nat eqn:Hlen; [|done].
  apply Nat.leb_le in Hlen. destruct n as [|n].
  - by rewrite take_0.
  - destruct (int_base2 (take (S n) ds)); [|done].
    apply IH. rewrite length_drop. lia.
Qed.
End Codec.

(** C2: on a string of binary digits [get_hotbits] returns, keeping the
    trailing partial chunk in the buffer, and decoding what it returns gives
    the string with its all-zero 24-bit chunks and its trailing partial chunk
    left out: the other chunks, each once, in their order.  Every integer
    returned lies in [1, 2^24 - 1]. *)
Theorem decode_encode_survivors (s : list bchar) :
  all_digits s = true →
  ∃ ints,
    get_hotbits 24 s = PDone ints (drop (24 * (length s / 24)) s) ∧
    decode ints = (surviving_bits s, true) ∧
    Forall (λ z, (0 < z < 2 ^ 24)%Z) ints.
Proof.
  intros Hd.
  destruct (hotbits_loop_digits (S (length s)) s [] Hd) as (ints & H1 & H2 & H3);
    [lia|].
  exists ints. split; [exact H1|]. split; [|exact H3].
  unfold decode. rewrite decode_items_ints. simpl. by rewrite H2.
Qed.

Lemma decode_encode_survivors_witness :
  get_hotbits 24 bits_5_0_9 = PDone [5; 9]%Z [c1; c1] ∧
  decode [5; 9]%Z = (format_024b 5 ++ format_024b 9, true) ∧
  surviving_bits bits_5_0_9 = format_024b 5 ++ format_024b 9.
Proof.
  destruct (decode_encode_survivors bits_5_0_9) as (ints & H1 & H2 & _);
    [vm_compute; reflexivity|].
  assert (Hints : ints = [5; 9]%Z).
  { vm_compute in H1. by inversion H1. }
  subst ints. split; [exact H1|]. split; [|vm_compute; reflexivity].
  rewrite H2. vm_compute. reflexivity.
Defined.

(** ** Drawing from a buffer that holds enough bits *)

Lemma getrandbits_prefix chunk rest w :
  current_bits w = chunk ++ rest → all_digits chunk = true → chunk ≠ [] →
  getrandbits (length chunk) w = Ok (digits_val chunk) (set_bits w rest).
Proof.
  intros Hbits Hd Hne.
  rewrite getrandbits_enough by (rewrite Hbits, length_app; lia).
  unfold take_bits. rewrite Hbits, take_app_length, drop_app_length.
  by rewrite int_base2_digits.
Qed.

Lemma getrandbits_0 w : getrandbits 0 w = Raise InvalidLiteral w.
Proof.
  rewrite getrandbits_enough by (simpl; lia).
  unfold take_bits. rewrite take_0, drop_0. simpl. by destruct w.
Qed.

(** One bit is 0 or 1. *)
Lemma getrandbits_1_value w v w' :
  getrandbits 1 w = Ok v w' → v = 0%Z ∨ v = 1%Z.
Proof.
  unfold getrandbits, bind.
  destruct (refill _ 1 w) as [u w1| |]; [|done|done].
  unfold take_bits. destruct (current_bits w1) as [|[| |] l]; simpl;
    intros H; inversion H; auto.
Qed.

Section Rejection.
Implicit Types (rejected : list (list bchar)) (chunk rest : list bchar).

Lemma randint_loop_S fuel a b p w :
  randint_loop (S fuel) a b (Some p) w =
    match getrandbits (bit_length p) w with
    | Ok rand_num w' =>
        if (a <=? rand_num)%Z && (rand_num <=? b)%Z then Ok rand_num w'
        else randint_loop fuel a b (Some p) w'
    | Raise e w' => Raise e w'
    | Timeout => Timeout
    end.
Proof.
  simpl. unfold bind. destruct (getrandbits _ w); [|done|done].
  by destruct (_ && _).
Qed.

Lemma randrange_loop_S fuel start step range_size w :
  randrange_loop (S fuel) start step range_size w =
    match getrandbits (bit_length (range_size - 1)) w with
    | Ok rand_num w' =>
        if (rand_num <? range_size)%Z then Ok (start + rand_num * step)%Z w'
        else randrange_loop fuel start step range_size w'
    | Raise e w' => Raise e w'
    | Timeout => Timeout
    end.
Proof.
  simpl. unfold bind. destruct (getrandbits _ w); [|done|done].
  by destruct (_ <? _)%Z.
Qed.

(** What [randint] returns passed its test. *)
Lemma randint_loop_ok fuel a b mp w r w' :
  randint_loop fuel a b mp w = Ok r w' → (a ≤ r ≤ b)%Z.
Proof.
  revert w. induction fuel as [|fuel IH]; intros w; [done|].
  destruct mp as [p|]; [|done]. rewrite randint_loop_S.
  destruct (getrandbits _ w) as [v w1| |]; [|done|done].
  destruct ((a <=? v)%Z && (v <=? b)%Z) eqn:Htest; [|by apply IH].
  intros H. inversion H; subst. lia.
Qed.

(** The loop of [randint] on a buffer that starts with draws that fail the
    test and then one that passes it. *)
Lemma randint_loop_accepts a b p rejected chunk rest w :
  bit_length p ≠ 0 →
  Forall (λ c, length c = bit_length p ∧ all_digits c = true
               ∧ ¬ (a ≤ digits_val c ≤ b)%Z) rejected →
  length chunk = bit_length p → all_digits chunk = true →
  (a ≤ digits_val chunk ≤ b)%Z →
  current_bits w = concat rejected ++ chunk ++ rest →
  randint_loop (S (length rejected)) a b (Some p) w
    = Ok (digits_val chunk) (set_bits w rest).
Proof.
  intros Hk Hrej Hlen Hd Hin. revert w.
  induction Hrej as [|c rejected (Hc1 & Hc2 & Hc3) _ IH]; intros w Hbits;
    rewrite randint_loop_S.
  - rewrite <- Hlen. simpl in Hbits.
    rewrite (getrandbits_prefix chunk rest) by (try done; by destruct chunk).
    destruct (a <=? digits_val chunk)%Z eqn:E1; [|lia].
    destruct (digits_val chunk <=? b)%Z eqn:E2; [done|lia].
  - rewrite <- Hc1. simpl in Hbits. rewrite <- app_assoc in Hbits.
    rewrite (getrandbits_prefix c _ w Hbits) by (try done; by destruct c).
    destruct ((a <=? digits_val c)%Z && (digits_val c <=? b)%Z) eqn:E; [lia|].
    simpl length. by rewrite IH.
Qed.

(** The same for [randrange], whose test is [rand_num < range_size]. *)
Lemma randrange_loop_accepts start step range_size rejected chunk rest w :
  bit_length (range_size - 1) ≠ 0 →
  Forall (λ c, length c = bit_length (range_size - 1) ∧ all_digits c = true
               ∧ (range_size ≤ digits_val c)%Z) rejected →
  length chunk = bit_length (range_size - 1) → all_digits chunk = true →
  (digits_val chunk < range_size)%Z →
  current_bits w = concat rejected ++ chunk ++ rest →
  randrange_loop (S (length rejected)) start step range_size w
    = Ok (start + digits_val chunk * step)%Z (set_bits w rest).
Proof.
  intros Hk Hrej Hlen Hd Hin. revert w.
  induction Hrej as [|c rejected (Hc1 & Hc2 & Hc3) _ IH]; intros w Hbits;
    rewrite randrange_loop_S.
  - rewrite <- Hlen. simpl in Hbits.
    rewrite (getrandbits_prefix chunk rest) by (try done; by destruct chunk).
    destruct (digits_val chunk <? range_size)%Z eqn:E; [done|lia].
  - rewrite <- Hc1. simpl in Hbits. rewrite <- app_assoc in Hbits.
    rewrite (getrandbits_prefix c _ w Hbits) by (try done; by destruct c).
    destruct (digits_val c <? range_size)%Z eqn:E; [lia|].
    simpl length. by rewrite IH.
Qed.
End Rejection.

(** For a range of two values or more, [randrange] on a buffer that starts
    with rejected draws and then an accepted one returns
    [start + draw * step]. *)
Lemma randrange_accepts start stop step rejected chunk rest w :
  step ≠ 0%Z →
  let range_size := ((stop - start) / step)%Z in
  (2 ≤ range_size)%Z →
  Forall (λ c, length c = bit_length (range_size - 1) ∧ all_digits c = true
               ∧ (range_size ≤ digits_val c)%Z) rejected →
  length chunk = bit_length (range_size - 1) → all_digits chunk = true →
  (digits_val chunk < range_size)%Z →
  current_bits w = concat rejected ++ chunk ++ rest →
  randrange (S (length rejected)) start (Some stop) step w
    = Ok (start + digits_val chunk * step)%Z (set_bits w rest)
  ∧ (0 ≤ digits_val chunk < range_size)%Z.
Proof.
  intros Hstep range_size Hsize Hrej Hlen Hd Hlt Hbits. split.
  - unfold randrange. destruct (step =? 0)%Z eqn:E; [lia|].
    fold range_size. clearbody range_size.
    apply randrange_loop_accepts; try done.
    destruct (range_size - 1)%Z as [|p|p] eqn:Hr; [lia | | lia].
    simpl. destruct p; simpl; lia.
  - split; [|done]. clear -Hd.
    destruct (digits_shape chunk Hd) as [[-> _]|(p & -> & _)]; lia.
Qed.

(** C7: a range of exactly one value.  The draw is [getrandbits(0)], which
    raises, so [randrange] returns nothing, whatever the pool holds. *)
Theorem randrange_single_value_raises (fuel : nat) (start stop step : Z)
    (w : World) :
  step ≠ 0%Z → ((stop - start) / step = 1)%Z →
  randrange (S fuel) start (Some stop) step w = Raise InvalidLiteral w.
Proof.
  intros Hstep Hsize. unfold randrange.
  destruct (step =? 0)%Z eqn:E; [lia|].
  rewrite Hsize, randrange_loop_S. simpl bit_length. by rewrite getrandbits_0.
Qed.

Lemma randrange_single_value_raises_witness :
  randrange 100 5 (Some 6%Z) 1 (world_of_bits (format_024b 5))
    = Raise InvalidLiteral (world_of_bits (format_024b 5)).
Proof.
  apply (randrange_single_value_raises 99 5 6 1); [discriminate | reflexivity].
Defined.

(** [randrange(1)], the range of 0 alone, fails in the same way. *)
Example randrange_1_raises :
  randrange 100 1 None 1 (world_of_bits (format_024b 5))
    = Raise InvalidLiteral (world_of_bits (format_024b 5)).
Proof. vm_compute. reflexivity. Qed.

(** With a range of three values the draws are two bits wide: [11] is
    thrown away and [10] gives [start + 2 * step]. *)
Example randrange_1_10_3_returns :
  randrange 100 1 (Some 10%Z) 3 (world_of_bits [c1; c1; c1; c0; c0])
    = Ok 7%Z (world_of_bits [c0]).
Proof. vm_compute. reflexivity. Qed.

(** C4: [getrandbits(0)] loads nothing and leaves the object as it was, but
    it does not return 0: the slice [current_bits[:0]] is empty and
    [int('', 2)] raises. *)
Theorem getrandbits_zero_raises (w : World) :
  refill (S (count_sets (fs w))) 0 w = Ok tt w ∧
  int_base2 (take 0 (current_bits w)) = None ∧
  getrandbits 0 w = Raise InvalidLiteral w.
Proof.
  split; [apply refill_enough; lia|]. split; [by rewrite take_0|].
  apply getrandbits_0.
Qed.

(** C5: with equal bounds other than 0 and 1, [randint] never returns.  Its
    draws are single bits, compared with [a] as they are, so every draw is
    rejected until the pool is exhausted. *)
Theorem randint_equal_bounds_never_returns (a : Z) (fuel : nat) (w : World) :
  (a < 0 ∨ 1 < a)%Z → is_ok (randint fuel a a w) = false.
Proof.
  intros Ha.
  assert (Hmp : py_pow2 (Z.of_nat (bit_length (a - a + 1)) - 1) = Some 1%Z).
  { replace (a - a + 1)%Z with 1%Z by lia. reflexivity. }
  unfold randint. rewrite Hmp. clear Hmp. revert w. induction fuel as [|fuel IH]; intros w; [done|].
  rewrite randint_loop_S. change (bit_length 1) with 1.
  destruct (getrandbits 1 w) as [v w1| |] eqn:Hg; [|done|done].
  apply getrandbits_1_value in Hg.
  destruct ((a <=? v)%Z && (v <=? a)%Z) eqn:E; [lia|]. apply IH.
Qed.

Lemma randint_equal_bounds_never_returns_witness :
  is_ok (randint 100 5 5 (world_of_bits (format_024b 5))) = false.
Proof.
  apply (randint_equal_bounds_never_returns 5 100). right. vm_compute.
  reflexivity.
Defined.

(** [randint(5, 5)] on a buffer of 24 bits: all of them are drawn and thrown
    away, and the call ends on the empty pool. *)
Example randint_5_5_exhausts :
  randint 100 5 5 (world_of_bits (format_024b 5))
    = Raise PoolExhausted (world_of_bits []).
Proof. vm_compute. reflexivity. Qed.

(** With bounds 0 and 0 the first zero bit is returned. *)
Example randint_0_0_returns :
  randint 100 0 0 (world_of_bits [c1; c1; c0; c1])
    = Ok 0%Z (world_of_bits [c1]).
Proof. vm_compute. reflexivity. Qed.

(** C6: [randint(0, 7)].  The size of the range is 8, the power of two is
    [2 ** (4 - 1) = 8], whose bit length is 4: every pass of the loop draws
    [getrandbits(4)], a draw above 7 is thrown away, and the first draw
    within [0, 7] is returned. *)
Theorem randint_0_7_draws_four_bits :
  (7 - 0 + 1 = 8)%Z ∧
  bit_length 8 = 4 ∧
  py_pow2 (Z.of_nat (bit_length (7 - 0 + 1)) - 1) = Some 8%Z ∧
  (∀ fuel w,
     randint (S fuel) 0 7 w =
       match getrandbits 4 w with
       | Ok rand_num w' =>
           if (0 <=? rand_num)%Z && (rand_num <=? 7)%Z then Ok rand_num w'
           else randint fuel 0 7 w'
       | Raise e w' => Raise e w'
       | Timeout => Timeout
       end) ∧
  (∀ rejected chunk rest w,
     Forall (λ c, length c = 4 ∧ all_digits c = true ∧ (7 < digits_val c)%Z)
       rejected →
     length chunk = 4 → all_digits chunk = true → (digits_val chunk ≤ 7)%Z →
     current_bits w = concat rejected ++ chunk ++ rest →
     randint (S (length rejected)) 0 7 w
       = Ok (digits_val chunk) (set_bits w rest)).
Proof.
  split; [done|]. split; [done|]. split; [done|]. split.
  - intros fuel w. unfold randint.
    change (py_pow2 _) with (Some 8%Z). by rewrite randint_loop_S.
  - intros rejected chunk rest w Hrej Hlen Hd Hle Hbits. unfold randint.
    change (py_pow2 _) with (Some 8%Z).
    apply randint_loop_accepts; try done.
    + eapply Forall_impl; [exact Hrej|]. simpl. intros c (? & ? & ?).
      split; [done|]. split; [done|]. lia.
    + split; [|done].
      destruct (digits_shape chunk Hd) as [[-> _]|(p & -> & _)]; lia.
Qed.

Lemma randint_0_7_draws_four_bits_witness :
  randint 2 0 7 (world_of_bits [c1; c0; c1; c0; c0; c1; c0; c1; c1])
    = Ok 5%Z (world_of_bits [c1]).
Proof.
  destruct randint_0_7_draws_four_bits as (_ & _ & _ & _ & H).
  apply (H [[c1; c0; c1; c0]] [c0; c1; c0; c1] [c1]
           (world_of_bits [c1; c0; c1; c0; c0; c1; c0; c1; c1]));
    [|reflexivity|reflexivity|vm_compute; discriminate|reflexivity].
  apply Forall_singleton. split; [reflexivity|]. split; [reflexivity|].
  vm_compute. reflexivity.
Defined.

(** ** Choosing and sampling *)

Section Sampling.
Context {A : Type}.
Implicit Types (seq : list A) (idxs : list Z).

Lemma py_index_range (n : nat) (i : Z) :
  (0 ≤ i < Z.of_nat n)%Z → py_index (py_range n) i = Some i.
Proof.
  intros Hi. unfold py_index, py_range. rewrite length_seqZ, Nat2Z.id.
  destruct (0 <=? i)%Z eqn:E1; [|lia].
  destruct (i <? Z.of_nat n)%Z eqn:E2; [|lia]. simpl.
  rewrite lookup_seqZ_lt by lia. f_equal. lia.
Qed.

(** Choosing in [range(n)] is drawing with [randint(0, n - 1)]. *)
Lemma choice_range fuel (n : nat) w :
  choice fuel (py_range n) w = randint fuel 0 (Z.of_nat n - 1) w.
Proof.
  unfold choice, bind, py_range. rewrite length_seqZ, Nat2Z.id.
  destruct (randint fuel 0 (Z.of_nat n - 1) w) as [r w'| |] eqn:Hr;
    [|done|done].
  apply randint_loop_ok in Hr. unfold index_or_raise.
  fold (py_range n). by rewrite py_index_range by lia.
Qed.

Lemma choices_n_range fuel (n k : nat) w idxs w' :
  choices_n fuel (py_range n) k w = Ok idxs w' →
  length idxs = k ∧ Forall (λ i, (0 ≤ i < Z.of_nat n)%Z) idxs.
Proof.
  revert w idxs. induction k as [|k IH]; intros w idxs; simpl.
  - intros H. inversion H. by split.
  - unfold bind at 1. rewrite choice_range.
    destruct (randint fuel 0 (Z.of_nat n - 1) w) as [r w1| |] eqn:Hr;
      [|done|done].
    unfold bind. destruct (choices_n fuel (py_range n) k w1)
      as [rest w2| |] eqn:Hrest; [|done|done].
    intros H. inversion H; subst. apply IH in Hrest as [Hlen Hall].
    apply randint_loop_ok in Hr. simpl. split; [by rewrite Hlen|].
    constructor; [lia | done].
Qed.

(** Indexing at positions that exist raises nothing and changes
    nothing. *)
Lemma index_all_in_range seq idxs w :
  Forall (λ i, (0 ≤ i < Z.of_nat (length seq))%Z) idxs →
  ∃ res, index_all seq idxs w = Ok res w
         ∧ Forall2 (λ x i, seq !! Z.to_nat i = Some x) res idxs.
Proof.
  induction 1 as [|i idxs Hi _ (res & Hres & Hall)]; simpl.
  - by exists [].
  - unfold bind, index_or_raise, py_index.
    destruct (0 <=? i)%Z eqn:E1; [|lia].
    destruct (i <? Z.of_nat (length seq))%Z eqn:E2; [|lia]. simpl.
    destruct (seq !! Z.to_nat i) as [x|] eqn:Hx.
    + unfold ret. rewrite Hres. exists (x :: res). split; [done|].
      by constructor.
    + apply lookup_ge_None in Hx. lia.
Qed.

Lemma sample_of_choices fuel seq (k : Z) w :
  match choices fuel (py_range (length seq)) k w with
  | Ok idxs w' =>
      length idxs = Z.to_nat k ∧
      Forall (λ i, (0 ≤ i < Z.of_nat (length seq))%Z) idxs ∧
      ∃ res, sample fuel seq k w = Ok res w'
             ∧ Forall2 (λ x i, seq !! Z.to_nat i = Some x) res (sorted idxs)
  | Raise e w' => sample fuel seq k w = Raise e w'
  | Timeout => sample fuel seq k w = Timeout
  end.
Proof.
  unfold sample, bind.
  destruct (choices fuel (py_range (length seq)) k w) as [idxs w'| |] eqn:Hc;
    [|done|done].
  apply choices_n_range in Hc as [Hlen Hall]. split; [done|]. split; [done|].
  apply index_all_in_range. unfold sorted.
  by rewrite merge_sort_Permutation.
Qed.
End Sampling.

(** C9: [sample] is [choices] over [range(len(seq))], sorted, and then used
    to index [seq].  It returns whenever [choices] does, with the world
    [choices] left; the [k] indices are positions of [seq], drawn one by one
    with nothing to keep them apart.  So a result can hold an element twice:
    on a buffer of four zero bits, two elements are asked of a sequence of
    three and the first comes back twice. *)
Theorem sample_sorted_choices_with_replacement :
  (∀ (A : Type) fuel (seq : list A) (k : Z) w,
     match choices fuel (py_range (length seq)) k w with
     | Ok idxs w' =>
         length idxs = Z.to_nat k ∧
         Forall (λ i, (0 ≤ i < Z.of_nat (length seq))%Z) idxs ∧
         ∃ res, sample fuel seq k w = Ok res w'
                ∧ Forall2 (λ x i, seq !! Z.to_nat i = Some x) res (sorted idxs)
     | Raise e w' => sample fuel seq k w = Raise e w'
     | Timeout => sample fuel seq k w = Timeout
     end) ∧
  (∀ idxs, Sorted Z.le (sorted idxs) ∧ sorted idxs ≡ₚ idxs) ∧
  (choices 1 (py_range 3) 2 (world_of_bits [c0; c0; c0; c0])
     = Ok [0; 0]%Z (world_of_bits []) ∧
   sample 1 [10; 20; 30]%Z 2 (world_of_bits [c0; c0; c0; c0])
     = Ok [10; 10]%Z (world_of_bits []) ∧
   ¬ NoDup [10; 10]%Z).
Proof.
  split; [intros; apply sample_of_choices|]. split.
  - intros idxs. unfold sorted. split.
    + apply Sorted_merge_sort. intros x y. lia.
    + apply merge_sort_Permutation.
  - split; [vm_compute; reflexivity|]. split; [vm_compute; reflexivity|].
    intros Hnd. apply NoDup_cons in Hnd as [Hnin _]. apply Hnin. set_solver.
Qed.

(** ** Backpressure *)

Section Backpressure.
Variable max_sets : Z.

Lemma producer_step_below_capacity i p :
  below_capacity max_sets (producer_step max_sets i p).2.
Proof.
  unfold below_capacity, producer_step.
  destruct (p_pc p) eqn:Hpc.
  - destruct (Z.of_nat (count_sets (p_dir p)) >=? max_sets)%Z eqn:E; simpl.
    + congruence.
    + intros _. rewrite Z.geb_leb in E. lia.
  - destruct i as [new_bits timestamp|]; [|done].
    destruct (24 * 100 <=? _)%nat; [|done].
    by destruct (get_hotbits 24 _).
  - simpl. congruence.
Qed.

Lemma sys_step_below_capacity p p' :
  below_capacity max_sets p → sys_step max_sets p p' →
  below_capacity max_sets p'.
Proof.
  intros Hinv Hstep.
  inversion Hstep as [i q|w q Hfs]; subst;
    [apply producer_step_below_capacity|].
  unfold below_capacity in *. simpl. intros Hpc.
  specialize (Hinv Hpc).
  pose proof (count_sets_subseteq (fs w) _ (load_next_file_shrinks w)) as Hle.
  rewrite Hfs in Hle. lia.
Qed.

Lemma reachable_below_capacity p0 p :
  p_pc p0 = AtPoll → reachable max_sets p0 p → below_capacity max_sets p.
Proof.
  intros Hstart. induction 1 as [|p p' _ IH Hstep].
  - unfold below_capacity. congruence.
  - by eapply sys_step_below_capacity.
Qed.

Lemma producer_step_enqueues i p name hotbits p' :
  producer_step max_sets i p = (Enqueued name hotbits, p') →
  p_pc p = AtCapture.
Proof.
  unfold producer_step. destruct (p_pc p); [|done|done].
  by destruct (_ >=? _)%Z.
Qed.
End Backpressure.

(** C8: a producer that starts at the test of its inner loop, run against a
    consumer that takes sets at any moment.  In every state it reaches, a
    step that saves a set starts from a directory below capacity; at the
    test with the directory at capacity the step sleeps for 10, keeps the
    directory and the accumulated bits as they are and comes back to the
    test; at the test below capacity it goes on to capture. *)
Theorem producer_suspends_at_capacity (max_sets : Z) (p0 p : Producer) :
  p_pc p0 = AtPoll →
  reachable max_sets p0 p →
  (∀ i name hotbits p',
     producer_step max_sets i p = (Enqueued name hotbits, p') →
     (Z.of_nat (count_sets (p_dir p)) < max_sets)%Z) ∧
  (p_pc p = AtPoll → (max_sets ≤ Z.of_nat (count_sets (p_dir p)))%Z →
     ∀ i, producer_step max_sets i p = (Slept 10, p)) ∧
  (p_pc p = AtPoll → (Z.of_nat (count_sets (p_dir p)) < max_sets)%Z →
     ∀ i, producer_step max_sets i p
          = (Resumed, mkProducer (p_dir p) (p_bits p) AtCapture)).
Proof.
  intros Hstart Hreach. split; [|split].
  - intros i name hotbits p' Hstep.
    apply (reachable_below_capacity max_sets p0 p Hstart Hreach).
    by eapply producer_step_enqueues.
  - intros Hpc Hfull i. unfold producer_step. rewrite Hpc.
    destruct (_ >=? _)%Z eqn:E; [done|]. rewrite Z.geb_leb in E. lia.
  - intros Hpc Hfree i. unfold producer_step. rewrite Hpc.
    destruct (_ >=? _)%Z eqn:E; [|done]. rewrite Z.geb_leb in E. lia.
Qed.

Lemma producer_suspends_at_capacity_witness :
  count_sets dir_two = 2 ∧
  producer_step 2 Failure producer_full = (Slept 10, producer_full).
Proof.
  split; [vm_compute; reflexivity|].
  refine (proj1 (proj2 (producer_suspends_at_capacity 2 producer_full
                          producer_full _ _)) _ _ Failure).
  - reflexivity.
  - constructor.
  - reflexivity.
  - vm_compute. discriminate.
Defined.

(** A producer below capacity does enqueue: 2400 bits make one set. *)
Example producer_enqueues :
  ∃ hotbits p',
    producer_step 2 (Frame (replicate 2400 true) "20240101_000002") producer_ready
      = (Enqueued "hotbits_20240101_000002.json" hotbits, p')
    ∧ length hotbits = 100 ∧ count_sets (p_dir p') = 1 ∧ p_pc p' = AtPoll.
Proof. eexists _, _. split; [vm_compute; reflexivity|]. by vm_compute. Qed.

(** At a capacity of two, one set taken by a consumer lets the producer
    leave the inner loop. *)
Example producer_resumes_after_take :
  ∃ w',
    load_next_file (mkWorld dir_two (fun n => n) 0 [] None) = Ok tt w' ∧
    count_sets (fs w') = 1 ∧
    (producer_step 2 Failure (mkProducer (fs w') [] AtPoll)).1 = Resumed.
Proof. eexists. split; [vm_compute; reflexivity|]. by vm_compute. Qed.

(** * More of the code *)

(** ** [format(z, '024b')] and [int(s, 2)] *)

Lemma digits_val_zeros n ds :
  digits_val (replicate n c0 ++ ds) = digits_val ds.
Proof.
  unfold digits_val. rewrite fold_left_app.
  replace (fold_left _ (replicate n c0) 0%Z) with 0%Z; [done|].
  induction n as [|n IH]; simpl; [done | exact IH].
Qed.

Lemma digits_val_bin_pos p : digits_val (bin_pos p) = Z.pos p.
Proof.
  induction p as [p IH|p IH|]; simpl bin_pos; [| |reflexivity];
    rewrite digits_val_snoc, IH; simpl digit_val; lia.
Qed.

Lemma all_digits_replicate n : all_digits (replicate n c0) = true.
Proof. induction n as [|n IH]; simpl; [done | exact IH]. Qed.

Lemma all_digits_bin_pos p : all_digits (bin_pos p) = true.
Proof.
  induction p as [p IH|p IH|]; simpl bin_pos; rewrite ?all_digits_app, ?IH;
    done.
Qed.

Lemma all_digits_zero_pad n p : all_digits (zero_pad n (bin_pos p)) = true.
Proof.
  unfold zero_pad.
  by rewrite all_digits_app, all_digits_replicate, all_digits_bin_pos.
Qed.

Lemma bin_pos_nonempty p : bin_pos p ≠ [].
Proof.
  intros H. apply (f_equal length) in H. rewrite length_bin_pos in H.
  destruct p; simpl in H; lia.
Qed.

Lemma zero_pad_nonempty n p : zero_pad n (bin_pos p) ≠ [].
Proof.
  unfold zero_pad. intros [_ H]%app_eq_nil. by apply bin_pos_nonempty in H.
Qed.

Lemma length_zero_pad n ds : length (zero_pad n ds) = Nat.max n (length ds).
Proof. unfold zero_pad. rewrite length_app, length_replicate. lia. Qed.

Lemma pow2_size_le p : (2 ^ Z.of_nat (Pos.size_nat p) ≤ 2 * Z.pos p)%Z.
Proof.
  induction p as [p IH|p IH|]; simpl Pos.size_nat;
    rewrite ?Nat2Z.inj_succ, ?Z.pow_succ_r by lia; lia.
Qed.

Lemma bit_length_le z n :
  (0 ≤ z < 2 ^ Z.of_nat n)%Z → bit_length z ≤ n.
Proof.
  destruct z as [|p|p]; simpl; [lia | | lia]. intros [_ Hlt].
  pose proof (pow2_size_le p) as Hle.
  assert (H : (2 ^ Z.of_nat (Pos.size_nat p) < 2 ^ Z.of_nat (S n))%Z).
  { rewrite Nat2Z.inj_succ, (Z.pow_succ_r _ (Z.of_nat n)) by lia. lia. }
  apply Z.pow_lt_mono_r_iff in H; lia.
Qed.

(** X1: what [format(z, '024b')] writes, [int(_, 2)] reads back, for every
    integer, signed or wider than 24 bits. *)
Theorem int_of_format_024b (z : Z) : int_base2 (format_024b z) = Some z.
Proof.
  destruct z as [|p|p]; [reflexivity | |].
  - simpl. rewrite int_base2_digits
      by (apply all_digits_zero_pad || apply zero_pad_nonempty).
    unfold zero_pad. by rewrite digits_val_zeros, digits_val_bin_pos.
  - simpl. pose proof (zero_pad_nonempty 23 p) as Hne.
    rewrite all_digits_zero_pad.
    destruct (zero_pad 23 (bin_pos p)) eqn:Hz; [done|]. rewrite <- Hz.
    unfold zero_pad. by rewrite digits_val_zeros, digits_val_bin_pos.
Qed.

(** X2: the width of what [format(z, '024b')] writes: 24 characters, or as
    many as the digits and the sign need when that is more.  An integer that
    fits 24 bits gives exactly 24; one that does not gives more. *)
Theorem format_024b_width (z : Z) :
  length (format_024b z)
    = Nat.max 24 (bit_length z + (if (z <? 0)%Z then 1 else 0)) ∧
  ((0 ≤ z < 2 ^ 24)%Z → length (format_024b z) = 24) ∧
  ((2 ^ 24 ≤ z)%Z → 24 < length (format_024b z)).
Proof.
  assert (Hlen : length (format_024b z)
            = Nat.max 24 (bit_length z + (if (z <? 0)%Z then 1 else 0))).
  { destruct z as [|p|p]; [reflexivity | |]; simpl.
    - rewrite length_zero_pad, length_bin_pos. lia.
    - rewrite length_zero_pad, length_bin_pos. lia. }
  split; [exact Hlen|]. split.
  - intros Hz. rewrite Hlen. pose proof (bit_length_le z 24 Hz).
    destruct (z <? 0)%Z eqn:E; lia.
  - intros Hz. rewrite Hlen. destruct z as [|p|p]; [lia | | lia]. simpl.
    pose proof (pos_lt_pow2_size p) as Hlt.
    assert (H : (2 ^ 24 < 2 ^ Z.of_nat (Pos.size_nat p))%Z) by lia.
    apply Z.pow_lt_mono_r_iff in H; lia.
Qed.

Lemma format_024b_width_witness :
  length (format_024b 5) = 24 ∧ 24 < length (format_024b (2 ^ 30)).
Proof.
  split.
  - apply (proj1 (proj2 (format_024b_width 5))). vm_compute.
    split; [discriminate | reflexivity].
  - apply (proj2 (proj2 (format_024b_width (2 ^ 30)))). vm_compute.
    discriminate.
Defined.

(** ** What a load leaves behind *)

Lemma decode_items_extends items acc :
  ∃ loaded, (decode_items items acc).1 = acc ++ loaded.
Proof.
  revert acc. induction items as [|[z|] items IH]; intros acc; simpl.
  - exists []. by rewrite app_nil_r.
  - destruct (IH (acc ++ format_024b z)) as [loaded Hl].
    exists (format_024b z ++ loaded). by rewrite Hl, app_assoc.
  - exists []. by rewrite app_nil_r.
Qed.

Lemma decode_items_bad good rest acc :
  decode_items ((JInt <$> good) ++ JOther :: rest) acc
    = (acc ++ concat (format_024b <$> good), false).
Proof.
  revert acc. induction good as [|z good IH]; intros acc; simpl.
  - by rewrite app_nil_r.
  - by rewrite IH, app_assoc.
Qed.

Lemma load_next_file_after (w : World) :
  let w' := world_after (load_next_file w) w in
  fs w' ⊆ fs w ∧
  (∀ g, ¬ is_json g → fs w' !! g = fs w !! g) ∧
  count_sets (fs w) ≤ S (count_sets (fs w')) ∧
  (∃ loaded, current_bits w' = current_bits w ++ loaded) ∧
  prng w' = prng w.
Proof.
  assert (Hsame : ∀ bits t cf,
    (∃ loaded, bits = current_bits w ++ loaded) →
    let w' := mkWorld (fs w) (prng w) t bits cf in
    fs w' ⊆ fs w ∧ (∀ g, ¬ is_json g → fs w' !! g = fs w !! g) ∧
    count_sets (fs w) ≤ S (count_sets (fs w')) ∧
    (∃ loaded, current_bits w' = current_bits w ++ loaded) ∧
    prng w' = prng w).
  { intros bits t cf Hb. simpl. repeat split; try done. lia. }
  assert (Hnil : ∃ loaded, current_bits w = current_bits w ++ loaded)
    by (exists []; by rewrite app_nil_r).
  unfold load_next_file.
  destruct (json_files (fs w)) as [|g gs] eqn:Hfiles.
  { simpl. destruct w. by apply Hsame. }
  set (f := choice_file (g :: gs) w).
  assert (Hin : f ∈ json_files (fs w))
    by (rewrite Hfiles; by apply choice_file_in).
  destruct (fs w !! f) as [[|items]|] eqn:Hf; [by apply Hsame | | by apply Hsame].
  pose proof (decode_items_extends items (current_bits w)) as Hext.
  destruct (decode_items items (current_bits w)) as [bits ok].
  destruct ok; [|by apply Hsame]. simpl in *.
  split; [apply delete_subseteq|]. split; [|split; [|done]].
  - intros h Hh. apply lookup_delete_ne. intros ->.
    apply json_files_in in Hin as [? _]. done.
  - rewrite (count_sets_delete _ f Hin). lia.
Qed.

(** X3: whatever [load_next_file] does, returning or raising, the directory
    only loses files, at most one, and never one whose name does not end in
    [.json]; the buffer keeps what it held and is extended at its tail. *)
Theorem load_next_file_frame (w : World) :
  let w' := world_after (load_next_file w) w in
  fs w' ⊆ fs w ∧
  (∀ g, ¬ is_json g → fs w' !! g = fs w !! g) ∧
  count_sets (fs w) ≤ S (count_sets (fs w')) ∧
  (∃ loaded, current_bits w' = current_bits w ++ loaded) ∧
  prng w' = prng w.
Proof.
  intros w'. destruct (load_next_file_after w) as (H1 & H2 & H3 & H4 & H5).
  split; [exact H1|]. split; [exact H2|]. split; [exact H3|].
  split; [exact H4 | exact H5].
Qed.

(** X4: a set whose list holds something that is not an integer.  The
    integers before it are decoded into the buffer, the call fails and the
    file stays; a second call, the queue holding that file only, decodes the
    same integers into the buffer once more. *)
Theorem load_next_file_bad_item (w : World) (f : string) (good : list Z)
    (rest : list json_item) :
  json_files (fs w) = [f] →
  fs w !! f = Some (IntegerList ((JInt <$> good) ++ JOther :: rest)) →
  let decoded := concat (format_024b <$> good) in
  let w1 := mkWorld (fs w) (prng w) (S (tick w))
              (current_bits w ++ decoded) (Some f) in
  load_next_file w = Raise MalformedSet w1 ∧
  load_next_file w1 =
    Raise MalformedSet
      (mkWorld (fs w) (prng w) (S (S (tick w)))
         ((current_bits w ++ decoded) ++ decoded) (Some f)).
Proof.
  intros Hfiles Hf decoded w1.
  assert (Hload : ∀ v, fs v = fs w →
    load_next_file v =
      Raise MalformedSet
        (mkWorld (fs w) (prng v) (S (tick v)) (current_bits v ++ decoded)
           (Some f))).
  { intros v Hv. unfold load_next_file. rewrite Hv, Hfiles.
    rewrite choice_file_singleton, Hf, decode_items_bad. done. }
  split; [by apply Hload|]. by rewrite Hload.
Qed.

Lemma load_next_file_bad_item_witness :
  load_next_file (mkWorld dir_bad_item (fun n => n) 0 [] None)
    = Raise MalformedSet
        (mkWorld dir_bad_item (fun n => n) 1 ([] ++ format_024b 5 ++ [])
           (Some "hotbits_20240101_000003.json"%string)).
Proof.
  refine (proj1 (load_next_file_bad_item
                   (mkWorld dir_bad_item (fun n => n) 0 [] None)
                   "hotbits_20240101_000003.json"%string [5%Z] [JInt 10%Z] _ _));
    vm_compute; reflexivity.
Defined.

(** ** What [getrandbits] consumes *)

Lemma refill_ok fuel k w w1 :
  refill fuel k w = Ok tt w1 →
  k ≤ length (current_bits w1) ∧
  fs w1 ⊆ fs w ∧
  (∃ loaded, current_bits w1 = current_bits w ++ loaded) ∧
  (k ≤ length (current_bits w) → w1 = w).
Proof.
  revert w. induction fuel as [|fuel IH]; intros w; simpl;
    destruct (length (current_bits w) <? k) eqn:Hlt;
    try (apply Nat.ltb_ge in Hlt); try (apply Nat.ltb_lt in Hlt);
    try done.
  - intros H. inversion H; subst. repeat split; try done.
    exists []. by rewrite app_nil_r.
  - unfold bind. pose proof (load_next_file_after w) as Hframe.
    destruct (load_next_file w) as [u w0| |]; [|done|done].
    simpl in Hframe. destruct Hframe as (Hsub & _ & _ & [l0 Hl0] & _).
    intros Hr. apply IH in Hr as (Hk & Hsub1 & [l1 Hl1] & _).
    split; [done|]. split; [by etrans|]. split; [|lia].
    exists (l0 ++ l1). by rewrite Hl1, Hl0, app_assoc.
  - intros H. inversion H; subst. repeat split; try done.
    exists []. by rewrite app_nil_r.
Qed.

Lemma refill_raise fuel k w e w1 :
  refill fuel k w = Raise e w1 →
  fs w1 ⊆ fs w ∧
  (∃ loaded, current_bits w1 = current_bits w ++ loaded) ∧
  (e = PoolExhausted →
     count_sets (fs w1) = 0 ∧ length (current_bits w1) < k) ∧
  (e = PoolExhausted ∨ e = MalformedSet).
Proof.
  revert w. induction fuel as [|fuel IH]; intros w; simpl;
    destruct (length (current_bits w) <? k) eqn:Hlt; try done.
  apply Nat.ltb_lt in Hlt. unfold bind.
  pose proof (load_next_file_after w) as Hframe.
  destruct (load_next_file_cases w)
    as [[Hnil H]|[(w0 & H & Hfs & _)|(w0 & f & H & _)]];
    rewrite H in *; simpl in Hframe;
    destruct Hframe as (Hsub & _ & _ & [l0 Hl0] & _).
  - intros Hr. inversion Hr; subst. split; [done|].
    split; [by exists l0|]. split; [|by left].
    intros _. unfold count_sets. by rewrite Hnil.
  - intros Hr. inversion Hr; subst. split; [done|].
    split; [by exists l0|]. split; [done | by right].
  - intros Hr. apply IH in Hr as (Hsub1 & [l1 Hl1] & Hpe & He).
    split; [by etrans|]. split; [|done].
    exists (l0 ++ l1). by rewrite Hl1, Hl0, app_assoc.
Qed.

(** X5: a call of [getrandbits] that returns has taken its [k] characters
    from the head of the buffer, extended at its tail by what it loaded;
    what it returns is their value, and they are gone from the buffer.
    With [k] characters in the buffer already, nothing is loaded and the
    directory is not touched. *)
Theorem getrandbits_takes_head (k : nat) (w : World) (v : Z) (w' : World) :
  getrandbits k w = Ok v w' →
  (∃ loaded chunk,
     current_bits w ++ loaded = chunk ++ current_bits w' ∧
     length chunk = k ∧ int_base2 chunk = Some v ∧
     (k ≤ length (current_bits w) → loaded = [])) ∧
  fs w' ⊆ fs w ∧
  (k ≤ length (current_bits w) → fs w' = fs w ∧ tick w' = tick w).
Proof.
  unfold getrandbits, bind.
  destruct (refill _ k w) as [[] w1| |] eqn:Hr; [|done|done].
  apply refill_ok in Hr as (Hk & Hsub & [loaded Hl] & Hsame).
  unfold take_bits.
  destruct (int_base2 (take k (current_bits w1))) as [v1|] eqn:Hv; [|done].
  intros H. inversion H; subst. simpl. split; [|split; [done|]].
  - exists loaded, (take k (current_bits w1)).
    rewrite <- Hl, take_drop, length_take. split; [done|]. split; [lia|].
    split; [done|]. intros Hen. rewrite (Hsame Hen) in Hl.
    apply (f_equal length) in Hl. rewrite length_app in Hl.
    destruct loaded; [done | simpl in Hl; lia].
  - intros Hen. by rewrite (Hsame Hen).
Qed.

Lemma getrandbits_takes_head_witness :
  ∃ loaded chunk,
    [] ++ loaded = chunk ++ format_024b 10 ∧ length chunk = 24
    ∧ int_base2 chunk = Some 5%Z.
Proof.
  destruct (getrandbits_takes_head 24 world_one 5
              (mkWorld (delete "hotbits_20240101_000000.json"%string dir_one)
                 (fun n => n) 1 (format_024b 10)
                 (Some "hotbits_20240101_000000.json"%string)))
    as [(loaded & chunk & H1 & H2 & H3 & _) _]; [vm_compute; reflexivity|].
  exists loaded, chunk. split; [exact H1|]. split; [exact H2 | exact H3].
Defined.

(** X6: [getrandbits] fails with [PoolExhausted] only on an empty queue and
    with fewer than [k] characters in the buffer; what was loaded before
    the failure stays in the buffer.  On an empty queue and a buffer that
    is too short it fails at once and changes nothing. *)
Theorem getrandbits_exhausted (k : nat) (w : World) :
  (∀ w', getrandbits k w = Raise PoolExhausted w' →
     count_sets (fs w') = 0 ∧ length (current_bits w') < k ∧
     fs w' ⊆ fs w ∧
     ∃ loaded, current_bits w' = current_bits w ++ loaded) ∧
  (count_sets (fs w) = 0 → length (current_bits w) < k →
     getrandbits k w = Raise PoolExhausted w).
Proof.
  split.
  - intros w'. unfold getrandbits, bind.
    destruct (refill _ k w) as [[] w1|e w1|] eqn:Hr; [| |done].
    + unfold take_bits. by destruct (int_base2 _).
    + intros H. inversion H; subst.
      apply refill_raise in Hr as (Hsub & Hl & Hpe & _).
      destruct (Hpe eq_refl). done.
  - intros Hz Hlt. unfold getrandbits, bind. rewrite Hz. simpl.
    apply Nat.ltb_lt in Hlt. rewrite Hlt. unfold bind.
    rewrite load_next_file_exhausted; [done|].
    unfold count_sets in Hz. by destruct (json_files (fs w)).
Qed.

Lemma getrandbits_exhausted_witness :
  getrandbits 4 (world_of_bits [c1; c0]) = Raise PoolExhausted (world_of_bits [c1; c0]).
Proof.
  apply (proj2 (getrandbits_exhausted 4 (world_of_bits [c1; c0])));
    vm_compute; [reflexivity | lia].
Defined.

(** ** Pools of unsigned integers *)

Lemma all_digits_format z : (0 ≤ z)%Z → all_digits (format_024b z) = true.
Proof.
  destruct z as [|p|p]; [done | | lia]. intros _. apply all_digits_zero_pad.
Qed.

Lemma all_digits_take_drop k ds :
  all_digits ds = true →
  all_digits (take k ds) = true ∧ all_digits (drop k ds) = true.
Proof.
  intros Hd. apply andb_true_iff. rewrite <- all_digits_app.
  by rewrite take_drop.
Qed.

Lemma decode_items_wf items acc :
  all_digits acc = true → Forall wf_item items →
  all_digits (decode_items items acc).1 = true.
Proof.
  intros Hacc Hall. revert acc Hacc.
  induction Hall as [|[z|] items Hz _ IH]; intros acc Hacc; simpl; try done.
  apply IH. rewrite all_digits_app, Hacc. by apply all_digits_format.
Qed.

Lemma digits_val_bound ds : (0 ≤ digits_val ds < 2 ^ Z.of_nat (length ds))%Z.
Proof.
  induction ds as [|c ds IH] using rev_ind; [done|].
  rewrite digits_val_snoc, length_app, Nat2Z.inj_add, Z.pow_add_r by lia.
  change (2 ^ Z.of_nat (length [c]))%Z with 2%Z. destruct c; simpl; lia.
Qed.

Lemma load_next_file_wf w :
  wf_world w → wf_world (world_after (load_next_file w) w).
Proof.
  intros [Hbits Hdir]. unfold load_next_file.
  destruct (json_files (fs w)) as [|g gs]; [done|].
  set (f := choice_file (g :: gs) w).
  destruct (fs w !! f) as [[|items]|] eqn:Hf; try done.
  pose proof (decode_items_wf items (current_bits w) Hbits (Hdir f _ Hf)) as Hd.
  destruct (decode_items items (current_bits w)) as [bits ok].
  destruct ok; simpl; split; try done.
  by apply map_Forall_delete.
Qed.

Lemma refill_wf fuel k w :
  wf_world w → wf_world (world_after (refill fuel k w) w).
Proof.
  revert w. induction fuel as [|fuel IH]; intros w Hwf; simpl;
    destruct (length (current_bits w) <? k); try done.
  unfold bind. pose proof (load_next_file_wf w Hwf) as Hl.
  destruct (load_next_file w) as [u w0|e w0|]; [|done|done].
  simpl in Hl. specialize (IH w0 Hl).
  by destruct (refill fuel k w0).
Qed.

Lemma getrandbits_wf (k : nat) (w : World) :
  wf_world w →
  wf_world (world_after (getrandbits k w) w) ∧
  (∀ v w', getrandbits k w = Ok v w' → (0 ≤ v < 2 ^ Z.of_nat k)%Z).
Proof.
  intros Hwf. unfold getrandbits, bind.
  pose proof (refill_wf (S (count_sets (fs w))) k w Hwf) as Hr.
  destruct (refill _ k w) as [[] w1|e w1|] eqn:Hre; [| by split | by split].
  simpl in Hr. destruct Hr as [Hbits Hdir].
  destruct (all_digits_take_drop k _ Hbits) as [Htake Hdrop].
  unfold take_bits.
  destruct (take k (current_bits w1)) as [|c l] eqn:Hck; [by split|].
  rewrite int_base2_digits by done. simpl. split; [by split|].
  intros v w' H. inversion H; subst.
  pose proof (digits_val_bound (c :: l)) as Hb.
  assert (Hlen : length (c :: l) ≤ k) by (rewrite <- Hck, length_take; lia).
  split; [lia|]. eapply Z.lt_le_trans; [apply Hb|].
  apply Z.pow_le_mono_r; lia.
Qed.

(** X7: a pool whose sets hold no negative integer never puts a sign in the
    buffer, whatever [getrandbits] does; and what [getrandbits(k)] returns
    from such a pool is an unsigned integer of [k] bits. *)
Theorem getrandbits_unsigned (k : nat) (w : World) :
  wf_world w →
  wf_world (world_after (getrandbits k w) w) ∧
  (∀ v w', getrandbits k w = Ok v w' → (0 ≤ v < 2 ^ Z.of_nat k)%Z).
Proof.
  intros Hwf. destruct (getrandbits_wf k w Hwf) as [Hafter Hval].
  split; [exact Hafter|]. intros v w' Hok. by eapply Hval.
Qed.

Lemma getrandbits_unsigned_witness :
  wf_world (world_after (getrandbits 24 world_one) world_one).
Proof.
  apply (getrandbits_unsigned 24 world_one). split; [reflexivity|].
  unfold wf_dir, world_one, dir_one. simpl fs.
  apply map_Forall_insert_2; [repeat constructor; simpl; lia|].
  apply map_Forall_insert_2; [done|]. apply map_Forall_empty.
Defined.

(** ** [randint], [randrange], [choice], [choices] *)

Lemma bit_length_pow2 (n : nat) : bit_length (2 ^ Z.of_nat n) = S n.
Proof.
  induction n as [|n IH]; [reflexivity|].
  rewrite Nat2Z.inj_succ, Z.pow_succ_r by lia.
  assert (Hpos : (0 < 2 ^ Z.of_nat n)%Z) by (apply Z.pow_pos_nonneg; lia).
  destruct (2 ^ Z.of_nat n)%Z as [|p|p] eqn:Hp; [lia | | lia].
  change (2 * Z.pos p)%Z with (Z.pos p~0).
  unfold bit_length in *. simpl Pos.size_nat. by f_equal.
Qed.

(** X8: what [randint(a, b)] returns lies within the bounds, and, the pool
    being unsigned, below [2 ** bit_length(b - a + 1)]: the draw is compared
    with the bounds as it is, so no value of the range at or above that
    power of two is ever returned. *)
Theorem randint_within (fuel : nat) (a b : Z) (w : World) (r : Z) (w' : World) :
  wf_world w →
  randint fuel a b w = Ok r w' →
  (a ≤ r ≤ b)%Z ∧ (0 ≤ r < 2 ^ Z.of_nat (bit_length (b - a + 1)))%Z
  ∧ wf_world w'.
Proof.
  intros Hwf Hr. split; [by eapply randint_loop_ok|].
  unfold randint, py_pow2 in Hr.
  destruct (Z.of_nat (bit_length (b - a + 1)) - 1 <? 0)%Z eqn:Hneg.
  { destruct fuel; discriminate. }
  apply Z.ltb_ge in Hneg.
  remember (bit_length (b - a + 1)) as n eqn:Hn.
  destruct n as [|n]; [lia|].
  replace (Z.of_nat (S n) - 1)%Z with (Z.of_nat n) in Hr by lia.
  clear Hn Hneg. revert w Hwf Hr.
  induction fuel as [|fuel IH]; intros w Hwf; [done|].
  rewrite randint_loop_S, bit_length_pow2.
  destruct (getrandbits_wf (S n) w Hwf) as [Hwf1 Hval].
  destruct (getrandbits (S n) w) as [v w1| |]; [|done|done].
  destruct ((a <=? v)%Z && (v <=? b)%Z); [|by apply IH].
  intros H. inversion H; subst. split; [by eapply Hval | done].
Qed.

Lemma randint_within_witness :
  (0 ≤ 5 ≤ 7)%Z ∧ (0 ≤ 5 < 2 ^ Z.of_nat (bit_length (7 - 0 + 1)))%Z
  ∧ wf_world (world_of_bits [c1]).
Proof.
  apply (randint_within 2 0 7
           (world_of_bits [c1; c0; c1; c0; c0; c1; c0; c1; c1])).
  - split; [reflexivity | apply map_Forall_empty].
  - vm_compute. reflexivity.
Defined.

(** X9: an empty range.  [randint(a, a - 1)] computes [2 ** -1], a float,
    and fails on its [bit_length] before a bit is drawn; so do [choice] and
    [sample] on an empty sequence. *)
Theorem randint_empty_range (fuel : nat) (a : Z) (w : World) :
  randint (S fuel) a (a - 1) w = Raise AttributeError w ∧
  (∀ A, choice (S fuel) (@nil A) w = Raise AttributeError w) ∧
  (∀ A k, (0 < k)%Z → sample (S fuel) (@nil A) k w = Raise AttributeError w).
Proof.
  assert (Hr : ∀ a, randint (S fuel) a (a - 1) w = Raise AttributeError w).
  { intros a'. unfold randint. by replace (a' - 1 - a' + 1)%Z with 0%Z by lia. }
  split; [apply Hr|]. split.
  - intros A. unfold choice, bind.
    change (Z.of_nat (length (@nil A)) - 1)%Z with (0 - 1)%Z.
    by rewrite (Hr 0%Z).
  - intros A k Hk. unfold sample, choices, bind.
    destruct (Z.to_nat k) as [|n] eqn:Hn; [lia|].
    cbn [choices_n length]. unfold bind. rewrite choice_range.
    change (Z.of_nat 0 - 1)%Z with (0 - 1)%Z. by rewrite (Hr 0%Z).
Qed.

Lemma randint_empty_range_witness :
  sample 1 (@nil Z) 2 (world_of_bits [c1]) = Raise AttributeError (world_of_bits [c1]).
Proof.
  apply (proj2 (proj2 (randint_empty_range 0 0 (world_of_bits [c1])))).
  reflexivity.
Defined.

(** X10: what [randrange] returns from an unsigned pool is
    [start + m * step] for some [m] with [0 <= m < (stop - start) // step];
    so over an empty range it returns nothing. *)
Theorem randrange_within (fuel : nat) (start : Z) (stop : option Z) (step : Z)
    (w : World) (r : Z) (w' : World) :
  wf_world w →
  randrange fuel start stop step w = Ok r w' →
  let '(lo, hi) :=
    match stop with None => (0, start)%Z | Some s => (start, s) end in
  ∃ m, r = (lo + m * step)%Z ∧ (0 ≤ m < (hi - lo) / step)%Z.
Proof.
  intros Hwf. unfold randrange.
  destruct (match stop with None => (0, start)%Z | Some s => (start, s) end)
    as [lo hi].
  destruct (step =? 0)%Z; [done|].
  generalize ((hi - lo) / step)%Z as range_size. intros range_size.
  revert w Hwf. induction fuel as [|fuel IH]; intros w Hwf; [done|].
  rewrite randrange_loop_S.
  destruct (getrandbits_wf (bit_length (range_size - 1)) w Hwf)
    as [Hwf1 Hval].
  destruct (getrandbits _ w) as [v w1| |]; [|done|done].
  destruct (v <? range_size)%Z eqn:Hlt; [|by apply IH].
  specialize (Hval v w1 eq_refl).
  intros H. inversion H; subst. exists v. split; [done|]. lia.
Qed.

Lemma randrange_within_witness :
  ∃ m, 7%Z = (1 + m * 3)%Z ∧ (0 ≤ m < (10 - 1) / 3)%Z.
Proof.
  apply (randrange_within 100 1 (Some 10%Z) 3
           (world_of_bits [c1; c1; c1; c0; c0]) 7 (world_of_bits [c0])).
  - split; [reflexivity | apply map_Forall_empty].
  - vm_compute. reflexivity.
Defined.

Section Choosing.
Context {A : Type}.
Implicit Types (seq : list A).

Lemma py_index_elem seq i x : py_index seq i = Some x → x ∈ seq.
Proof.
  unfold py_index. intros H. apply list_elem_of_lookup.
  destruct (_ && _); [eauto|]. destruct (_ && _); [eauto | done].
Qed.

Lemma choice_cases fuel seq w :
  match choice fuel seq w with
  | Ok x _ => x ∈ seq
  | Raise e _ => e ≠ IndexError
  | Timeout => True
  end.
Proof.
  unfold choice, bind.
  destruct (randint fuel 0 (Z.of_nat (length seq) - 1) w) as [r w1|e w1|] eqn:Hr;
    [| |done].
  - apply randint_loop_ok in Hr. unfold index_or_raise.
    destruct (py_index seq r) as [x|] eqn:Hx; [by eapply py_index_elem|].
    unfold py_index in Hx.
    destruct (0 <=? r)%Z eqn:E1; [|lia].
    destruct (r <? Z.of_nat (length seq))%Z eqn:E2; [|lia]. simpl in Hx.
    apply lookup_ge_None in Hx. lia.
  - intros ->. unfold randint in Hr.
    destruct (py_pow2 _) as [p|]; [|by destruct fuel].
    revert w Hr. induction fuel as [|fuel IH]; intros w; [done|].
    rewrite randint_loop_S.
    destruct (getrandbits (bit_length p) w) as [v w2|e w2|] eqn:Hg; [| |done].
    + destruct (_ && _); [done | apply IH].
    + intros H. inversion H; subst. clear -Hg.
      unfold getrandbits, bind in Hg.
      destruct (refill _ _ w) as [[] w3|e w3|] eqn:Hre; [| |done].
      * unfold take_bits in Hg. by destruct (int_base2 _).
      * inversion Hg; subst.
        apply refill_raise in Hre as (_ & _ & _ & [?|?]); done.
Qed.

(** X11: what [choice] returns is an element of the sequence, and what
    [choices(seq, k)] returns is a list of [k] elements of it; neither
    indexes the sequence out of its bounds. *)
Theorem choices_elements (fuel : nat) (seq : list A) (k : Z) (w : World) :
  match choices fuel seq k w with
  | Ok xs _ => length xs = Z.to_nat k ∧ Forall (λ x, x ∈ seq) xs
  | Raise e _ => e ≠ IndexError
  | Timeout => True
  end.
Proof.
  unfold choices. generalize (Z.to_nat k) as n. intros n. revert w.
  induction n as [|n IH]; intros w; simpl; [done|].
  unfold bind at 1. pose proof (choice_cases fuel seq w) as Hc.
  destruct (choice fuel seq w) as [x w1|e w1|]; [|done|done].
  unfold bind. specialize (IH w1).
  destruct (choices_n fuel seq n w1) as [xs w2|e w2|]; [|done|done].
  destruct IH as [Hlen Hall]. simpl. split; [by rewrite Hlen|].
  by constructor.
Qed.
End Choosing.

(** ** [shuffle] *)

Section Shuffle.
Context {A : Type}.
Implicit Types (seq : list A).

Lemma shuffle_from_perm fuel i seq w :
  i < length seq ∨ i = 0 →
  let r := shuffle_from fuel i seq w in
  r.1 ≡ₚ seq ∧ (∀ w1, r.2 ≠ Raise IndexError w1).
Proof.
  revert seq w. induction i as [|i IH]; intros seq w Hi; simpl; [done|].
  destruct Hi as [Hi|?]; [|done].
  pose proof (choice_cases fuel (py_range (S (S i))) w) as Hc.
  rewrite choice_range in Hc.
  replace (Z.of_nat (S (S i)) - 1)%Z with (Z.of_nat (S i)) in Hc by lia.
  destruct (randint fuel 0 (Z.of_nat (S i)) w) as [j w1|e w1|] eqn:Hr;
    [| split; [done | simpl; intros ? [=]; congruence]
     | split; [done | simpl; intros ? [=]]].
  apply randint_loop_ok in Hr. unfold py_position.
  destruct (0 <=? j)%Z eqn:E1; [|lia].
  destruct (j <? Z.of_nat (length seq))%Z eqn:E2; [|lia]. simpl.
  destruct (seq !! Z.to_nat j) as [y|] eqn:Hy;
    [|apply lookup_ge_None in Hy; lia].
  destruct (seq !! S i) as [x|] eqn:Hx; [|apply lookup_ge_None in Hx; lia].
  destruct (IH (<[Z.to_nat j:=x]> (<[S i:=y]> seq)) w1) as [Hp Hn].
  { left. rewrite !length_insert. lia. }
  split; [|done]. rewrite Hp. by apply Permutation_insert_swap.
Qed.

(** X12: [shuffle] leaves a permutation of the list, of the same length,
    whether it returns or fails on the way, and it never indexes the list
    out of its bounds. *)
Theorem shuffle_permutes (fuel : nat) (seq : list A) (w : World) :
  (shuffle fuel seq w).1 ≡ₚ seq ∧
  length (shuffle fuel seq w).1 = length seq ∧
  (∀ w1, (shuffle fuel seq w).2 ≠ Raise IndexError w1).
Proof.
  unfold shuffle.
  destruct (shuffle_from_perm fuel (length seq - 1) seq w) as [Hp Hn];
    [lia|].
  split; [done|]. split; [by rewrite Hp | done].
Qed.
End Shuffle.

(** A shuffle of three elements on the draws 10, 1: positions 2 and 2 are
    swapped, then positions 1 and 1. *)
Example shuffle_three :
  shuffle 5 [10; 20; 30]%Z (world_of_bits [c1; c0; c0; c1; c1])
    = ([10; 20; 30]%Z, Ok tt (world_of_bits [c1])).
Proof. vm_compute. reflexivity. Qed.

(** ** [random] *)

(** X13: from an unsigned pool [random] returns a number in [0, 1), the 53
    bits it drew over [2 ** 53]. *)
Theorem random_unit_interval (w : World) (q : Q) (w' : World) :
  wf_world w → random w = Ok q w' →
  (0 <= q)%Q ∧ (q < 1)%Q ∧
  ∃ n, getrandbits 53 w = Ok n w' ∧ q = Qmake n 9007199254740992.
Proof.
  intros Hwf. unfold random, bind.
  destruct (getrandbits_wf 53 w Hwf) as [_ Hval].
  destruct (getrandbits 53 w) as [n w1| |]; [|done|done].
  specialize (Hval n w1 eq_refl).
  intros H. inversion H; subst. split; [|split; [|by exists n]].
  - unfold Qle. simpl. lia.
  - unfold Qlt. simpl. change (2 ^ Z.of_nat 53)%Z with 9007199254740992%Z in Hval.
    lia.
Qed.

Lemma random_unit_interval_witness :
  (0 <= Qmake 1 9007199254740992)%Q ∧ (Qmake 1 9007199254740992 < 1)%Q.
Proof.
  destruct (random_unit_interval
              (world_of_bits (replicate 52 c0 ++ [c1; c1]))
              (Qmake 1 9007199254740992) (world_of_bits [c1]))
    as (H1 & H2 & _).
  - split; [reflexivity | apply map_Forall_empty].
  - vm_compute. reflexivity.
  - split; [exact H1 | exact H2].
Defined.

(** ** [get_hotbits] for any chunk size *)

Lemma hotbits_loop_chunks fuel n ds acc :
  0 < n → all_digits ds = true → length ds < fuel →
  ∃ ints,
    hotbits_loop fuel n ds acc
      = PDone (acc ++ ints) (drop (n * (length ds / n)) ds) ∧
    length ints ≤ length ds / n ∧
    Forall (λ z, (0 < z < 2 ^ Z.of_nat n)%Z) ints.
Proof.
  intros Hn. revert ds acc.
  induction fuel as [|fuel IH]; intros ds acc Hd Hfuel; [lia|].
  rewrite hotbits_loop_S. destruct (n <=? length ds) eqn:Hlen.
  - apply Nat.leb_le in Hlen.
    destruct (all_digits_take_drop n ds Hd) as [Htake Hdrop].
    assert (Hlt : length (take n ds) = n) by (rewrite length_take; lia).
    assert (Hdiv : length ds / n = S ((length ds - n) / n)).
    { replace (length ds) with (1 * n + (length ds - n)) at 1 by lia.
      rewrite Nat.div_add_l by lia. lia. }
    rewrite int_base2_digits;
      [|done|intros Hnil; rewrite Hnil in Hlt; simpl in Hlt; lia].
    destruct (IH (drop n ds)
                (if (digits_val (take n ds) =? 0)%Z then acc
                 else acc ++ [digits_val (take n ds)]) Hdrop)
      as (ints & Hloop & Hcount & Hrange); [rewrite length_drop; lia|].
    rewrite length_drop in Hloop, Hcount.
    exists ((if (digits_val (take n ds) =? 0)%Z then []
             else [digits_val (take n ds)]) ++ ints).
    split; [|split].
    + rewrite Hloop, drop_drop, Hdiv.
      replace (n + n * ((length ds - n) / n)) with (n * S ((length ds - n) / n))
        by lia.
      by destruct (digits_val (take n ds) =? 0)%Z; rewrite <- ?app_assoc.
    + rewrite Hdiv, length_app.
      destruct (digits_val (take n ds) =? 0)%Z; simpl; lia.
    + apply Forall_app. split; [|done].
      destruct (digits_val (take n ds) =? 0)%Z eqn:Hz; [done|].
      apply Forall_singleton. apply Z.eqb_neq in Hz.
      pose proof (digits_val_bound (take n ds)) as Hb. rewrite Hlt in Hb. lia.
  - apply Nat.leb_gt in Hlen. exists []. rewrite app_nil_r.
    rewrite Nat.div_small, Nat.mul_0_r, drop_0 by done.
    split; [done|]. split; [simpl; lia | done].
Qed.

(** X14: [get_hotbits] with a chunk size of [n > 0] on a string of digits.
    It returns at most one integer per whole chunk, each in [1, 2^n - 1],
    and leaves in the buffer the last [len mod n] characters; a second
    call returns no integer and leaves them there. *)
Theorem get_hotbits_leftover (n : nat) (ds : list bchar) :
  0 < n → all_digits ds = true →
  ∃ ints rest,
    get_hotbits n ds = PDone ints rest ∧
    rest = drop (length ds - length ds mod n) ds ∧
    length rest = length ds mod n ∧
    length ints ≤ length ds / n ∧
    Forall (λ z, (0 < z < 2 ^ Z.of_nat n)%Z) ints ∧
    get_hotbits n rest = PDone [] rest.
Proof.
  intros Hn Hd.
  destruct (hotbits_loop_chunks (S (length ds)) n ds [] Hn Hd)
    as (ints & Hloop & Hcount & Hrange); [lia|].
  pose proof (Nat.div_mod (length ds) n ltac:(lia)) as Hdm.
  pose proof (Nat.mod_upper_bound (length ds) n ltac:(lia)) as Hmod.
  assert (Hoff : n * (length ds / n) = length ds - length ds mod n) by lia.
  rewrite Hoff in Hloop.
  eexists ints, _. split; [exact Hloop|]. split; [done|].
  assert (Hlen : length (drop (length ds - length ds mod n) ds)
                 = length ds mod n) by (rewrite length_drop; lia).
  split; [done|]. split; [done|]. split; [done|].
  unfold get_hotbits. rewrite hotbits_loop_S.
  destruct (n <=? _) eqn:E; [apply Nat.leb_le in E; lia | done].
Qed.

Lemma get_hotbits_leftover_witness :
  ∃ ints rest,
    get_hotbits 24 bits_5_0_9 = PDone ints rest ∧ length rest = 2
    ∧ length ints ≤ 3.
Proof.
  destruct (get_hotbits_leftover 24 bits_5_0_9)
    as (ints & rest & H1 & _ & H2 & H3 & _); [lia | reflexivity |].
  exists ints, rest. split; [exact H1|]. split; [exact H2 | exact H3].
Defined.

(** X15: [get_hotbits] ends on every buffer, for every chunk size.  With a
    chunk size of 0 the first chunk is the empty string, which [int]
    rejects: the call fails and the buffer is as it was. *)
Theorem get_hotbits_ends (n : nat) (ds : list bchar) :
  get_hotbits n ds ≠ PTimeout ∧ get_hotbits 0 ds = PValueError ds.
Proof.
  split; [apply hotbits_loop_terminates; lia|].
  unfold get_hotbits. rewrite hotbits_loop_S. by rewrite take_0.
Qed.

(** A chunk that holds a sign stops [get_hotbits]: the integers found so
    far are lost with the exception, the chunks before it are gone from
    the buffer. *)
Example get_hotbits_sign :
  get_hotbits 4 [c0; c1; c0; c1; c1; cminus; c0; c0; c1]
    = PValueError [c1; cminus; c0; c0; c1].
Proof. vm_compute. reflexivity. Qed.

(** ** [save_to_file] and [count_sets] *)

Lemma substring_all (s : string) : String.substring 0 (String.length s) s = s.
Proof. induction s as [|c s IH]; simpl; [done | by rewrite IH]. Qed.

Lemma substring_append (a b : string) :
  String.substring (String.length a) (String.length b) (a +:+ b) = b.
Proof. induction a as [|c a IH]; simpl; [apply substring_all | exact IH]. Qed.

Lemma length_append (a b : string) :
  String.length (a +:+ b) = String.length a + String.length b.
Proof. induction a as [|c a IH]; simpl; [done | by rewrite IH]. Qed.

Lemma endswith_append (a b : string) : endswith (a +:+ b) b = true.
Proof.
  unfold endswith. rewrite length_append.
  replace (String.length a + String.length b - String.length b)
    with (String.length a) by lia.
  rewrite substring_append, String.eqb_refl.
  apply andb_true_iff. split; [apply Nat.leb_le; lia | done].
Qed.

Lemma set_filename_json timestamp : is_json (set_filename timestamp).
Proof.
  unfold is_json, set_filename.
  assert (Hassoc : ∀ a b c : string, (a +:+ (b +:+ c) = (a +:+ b) +:+ c)%string).
  { intros a b c. induction a as [|x a IH]; [done|].
    change (String x (a +:+ (b +:+ c)) = String x ((a +:+ b) +:+ c))%string.
    by rewrite IH. }
  rewrite Hassoc. apply endswith_append.
Qed.

Lemma json_files_insert d f c :
  is_json f → json_files (<[f:=c]> d) ≡ₚ f :: json_files (delete f d).
Proof.
  intros Hj. rewrite <- (insert_delete_eq d).
  unfold json_files at 1, listdir.
  rewrite map_to_list_insert by apply lookup_delete_eq. simpl.
  rewrite filter_cons. by destruct (decide (is_json f)).
Qed.

Lemma count_sets_insert d f c :
  is_json f →
  count_sets (<[f:=c]> d)
    = match d !! f with Some _ => count_sets d | None => S (count_sets d) end.
Proof.
  intros Hj. unfold count_sets at 1. rewrite json_files_insert by done.
  simpl. destruct (d !! f) as [x|] eqn:Hf.
  - symmetry. apply count_sets_delete, json_files_in. eauto.
  - by rewrite delete_id.
Qed.

(** X16: [save_to_file] writes under a name that [count_sets] counts, and
    the set can be read back under it.  Under a fresh time stamp the count
    grows by one; under a time stamp already used the count stays and the
    set saved before under that name is replaced. *)
Theorem save_to_file_counts (timestamp : string) (hotbits : list Z)
    (d : gmap string file_content) :
  let name := set_filename timestamp in
  let d' := save_to_file timestamp hotbits d in
  is_json name ∧
  d' !! name = Some (IntegerList (JInt <$> hotbits)) ∧
  (∀ g, g ≠ name → d' !! g = d !! g) ∧
  count_sets d'
    = match d !! name with Some _ => count_sets d | None => S (count_sets d) end.
Proof.
  intros name d'. pose proof (set_filename_json timestamp) as Hj.
  split; [done|]. unfold d', save_to_file. fold name.
  split; [apply lookup_insert_eq|]. split.
  - intros g Hg. by apply lookup_insert_ne.
  - by apply count_sets_insert.
Qed.

(** Two sets saved within the same second: one file, holding the second. *)
Example save_to_file_collision :
  let d := save_to_file "20240101_000000" [7; 8]%Z
             (save_to_file "20240101_000000" [5; 10]%Z ∅) in
  count_sets d = 1 ∧
  d !! "hotbits_20240101_000000.json"%string
    = Some (IntegerList [JInt 7; JInt 8]).
Proof. vm_compute. done. Qed.

(** X17: from the producer to the consumer.  The bits of a processor
    buffer, cut into a set by [get_hotbits] and saved into a queue that
    holds no set, come back at the tail of the consumer's buffer at the next
    load without their all-zero chunks and their trailing partial chunk, and
    the directory is again what it was before the set was saved. *)
Theorem save_then_load (s : list bchar) (timestamp : string)
    (d : gmap string file_content) (r : nat → nat) (t : nat)
    (bits : list bchar) (cf : option string) :
  all_digits s = true →
  count_sets d = 0 →
  d !! set_filename timestamp = None →
  ∃ ints rest,
    get_hotbits 24 s = PDone ints rest ∧
    load_next_file (mkWorld (save_to_file timestamp ints d) r t bits cf)
      = Ok tt (mkWorld d r (S t) (bits ++ surviving_bits s)
                 (Some (set_filename timestamp))).
Proof.
  intros Hd Hz Hfresh.
  destruct (hotbits_loop_digits (S (length s)) s [] Hd) as (ints & H1 & H2 & _);
    [lia|].
  eexists ints, _. split; [exact H1|].
  set (name := set_filename timestamp).
  assert (Hfiles : json_files (save_to_file timestamp ints d) = [name]).
  { apply Permutation_singleton_r. unfold save_to_file.
    rewrite json_files_insert by apply set_filename_json.
    rewrite delete_id by done. unfold count_sets in Hz.
    by destruct (json_files d). }
  pose proof (load_next_file_good
                (mkWorld (save_to_file timestamp ints d) r t bits cf) ints)
    as Hgood.
  simpl in Hgood. rewrite Hfiles, choice_file_singleton in Hgood.
  rewrite Hgood; [| done | apply lookup_insert_eq].
  unfold save_to_file. fold name. rewrite delete_insert_id by done.
  by rewrite H2.
Qed.

Lemma save_then_load_witness :
  ∃ ints rest,
    get_hotbits 24 bits_5_0_9 = PDone ints rest ∧
    load_next_file
      (mkWorld (save_to_file "20240101_000000" ints ∅) (fun n => n) 0 [c1] None)
      = Ok tt (mkWorld ∅ (fun n => n) 1 ([c1] ++ surviving_bits bits_5_0_9)
                 (Some (set_filename "20240101_000000"))).
Proof.
  apply (save_then_load bits_5_0_9 "20240101_000000" ∅ (fun n => n) 0 [c1] None);
    reflexivity.
Defined.

(** ** The producer over time *)

Section Producer.
Variable max_sets : Z.

Lemma all_digits_bit_chars (new_bits : list bool) :
  all_digits (bit_char <$> new_bits) = true.
Proof. induction new_bits as [|[] l IH]; simpl; done. Qed.

(** A pass of the loop on a frame, the buffer holding digits: either the
    bits are kept for later, or a set is cut from them and saved. *)
Lemma producer_step_frame new_bits timestamp p :
  p_pc p = AtCapture → all_digits (p_bits p) = true →
  let bits := p_bits p ++ (bit_char <$> new_bits) in
  (length bits < 2400 ∧
   producer_step max_sets (Frame new_bits timestamp) p
     = (Accumulated, mkProducer (p_dir p) bits AtPoll)) ∨
  (2400 ≤ length bits ∧
   ∃ hotbits rest,
     get_hotbits 24 bits = PDone hotbits rest ∧
     producer_step max_sets (Frame new_bits timestamp) p
       = (Enqueued (set_filename timestamp) hotbits,
          mkProducer (save_to_file timestamp hotbits (p_dir p)) rest AtPoll) ∧
     decode hotbits = (surviving_bits bits, true) ∧
     Forall (λ z, (0 < z < 2 ^ 24)%Z) hotbits ∧
     all_digits rest = true ∧ length rest < 24).
Proof.
  intros Hpc Hd bits. unfold producer_step. rewrite Hpc. fold bits.
  assert (Hbits : all_digits bits = true).
  { unfold bits. by rewrite all_digits_app, Hd, all_digits_bit_chars. }
  change (24 * 100) with 2400.
  destruct (2400 <=? length bits) eqn:Hlen;
    [apply Nat.leb_le in Hlen; right | apply Nat.leb_gt in Hlen; by left].
  split; [done|].
  destruct (hotbits_loop_digits (S (length bits)) bits [] Hbits)
    as (ints & H1 & H2 & H3); [lia|].
  fold (get_hotbits 24 bits) in H1. simpl app in H1.
  eexists ints, _. split; [exact H1|]. rewrite H1. split; [done|].
  split; [unfold decode; rewrite decode_items_ints; simpl; by rewrite H2|].
  split; [done|].
  split; [by apply all_digits_take_drop|].
  rewrite length_drop.
  pose proof (Nat.div_mod (length bits) 24 ltac:(lia)).
  pose proof (Nat.mod_upper_bound (length bits) 24 ltac:(lia)). lia.
Qed.

Lemma count_sets_save timestamp hotbits d :
  count_sets (save_to_file timestamp hotbits d) ≤ S (count_sets d).
Proof.
  unfold save_to_file.
  rewrite count_sets_insert by apply set_filename_json.
  destruct (d !! _); lia.
Qed.

Lemma producer_step_count i p :
  count_sets (p_dir (producer_step max_sets i p).2) ≤ S (count_sets (p_dir p))
  ∧ (p_pc p ≠ AtCapture →
     p_dir (producer_step max_sets i p).2 = p_dir p).
Proof.
  unfold producer_step. destruct (p_pc p).
  - destruct (_ >=? _)%Z; simpl; split; (lia || done).
  - split; [|done]. destruct i as [nb ts|]; [|simpl; lia].
    destruct (_ <=? _); [|simpl; lia].
    destruct (get_hotbits 24 _); simpl; try lia. apply count_sets_save.
  - simpl. split; (lia || done).
Qed.
End Producer.

(** X18: the queue stays bounded.  Run against a consumer, a producer that
    starts at the test of its inner loop never brings the number of sets
    above its capacity, nor above what the directory held at the start. *)
Theorem producer_queue_bounded (max_sets : Z) (p0 p : Producer) :
  p_pc p0 = AtPoll →
  reachable max_sets p0 p →
  (Z.of_nat (count_sets (p_dir p))
     ≤ Z.max (Z.of_nat (count_sets (p_dir p0))) max_sets)%Z.
Proof.
  intros Hstart Hreach.
  induction Hreach as [|p p' Hreach IH Hstep]; [lia|].
  pose proof (reachable_below_capacity max_sets p0 p Hstart Hreach) as Hcap.
  inversion Hstep as [i q|w q Hfs]; subst.
  - destruct (producer_step_count max_sets i p) as [Hle Hsame].
    destruct (p_pc p) eqn:Hpc.
    + by rewrite Hsame.
    + unfold below_capacity in Hcap. rewrite Hpc in Hcap.
      specialize (Hcap eq_refl). lia.
    + by rewrite Hsame.
  - simpl.
    pose proof (count_sets_subseteq (fs w) _ (load_next_file_shrinks w)) as Hle.
    rewrite Hfs in Hle. lia.
Qed.

Lemma producer_queue_bounded_witness :
  (Z.of_nat (count_sets (p_dir (producer_step 2 Failure producer_full).2))
     ≤ Z.max (Z.of_nat (count_sets (p_dir producer_full))) 2)%Z.
Proof.
  apply (producer_queue_bounded 2 producer_full); [reflexivity|].
  eapply reach_step; [apply reach_start | apply step_producer].
Defined.

Lemma reachable_digits (max_sets : Z) (p0 p : Producer) :
  all_digits (p_bits p0) = true → reachable max_sets p0 p →
  all_digits (p_bits p) = true.
Proof.
  intros Hd0 Hreach.
  induction Hreach as [|p p' _ IH Hstep]; [done|].
  inversion Hstep as [i q|w q Hfs]; subst; [|done].
  destruct (p_pc p) eqn:Hpc.
  - unfold producer_step. rewrite Hpc. by destruct (_ >=? _)%Z.
  - destruct i as [nb ts|]; [|unfold producer_step; by rewrite Hpc].
    destruct (producer_step_frame max_sets nb ts p Hpc IH)
      as [[_ ->]|(_ & hot & rest & _ & -> & _ & _ & Hrest & _)]; simpl.
    + by rewrite all_digits_app, IH, all_digits_bit_chars.
    + done.
  - unfold producer_step. by rewrite Hpc.
Qed.



(** X20: what a pass of the loop saves.  From a buffer of digits that has
    reached 2400 bits with the new frame, the set is saved under the name
    made of the time stamp; its integers lie in [1, 2^24 - 1] and decode to
    the buffer without its all-zero chunks and its trailing partial chunk,
    which, shorter than 24 bits, is all that stays in the buffer. *)
Theorem producer_step_saves (max_sets : Z) (new_bits : list bool)
    (timestamp : string) (p : Producer) :
  p_pc p = AtCapture → all_digits (p_bits p) = true →
  2400 ≤ length (p_bits p) + length new_bits →
  ∃ hotbits rest,
    producer_step max_sets (Frame new_bits timestamp) p
      = (Enqueued (set_filename timestamp) hotbits,
         mkProducer (save_to_file timestamp hotbits (p_dir p)) rest AtPoll) ∧
    decode hotbits
      = (surviving_bits (p_bits p ++ (bit_char <$> new_bits)), true) ∧
    Forall (λ z, (0 < z < 2 ^ 24)%Z) hotbits ∧
    length hotbits ≤ (length (p_bits p) + length new_bits) / 24 ∧
    length rest < 24.
Proof.
  intros Hpc Hd Hlen.
  destruct (producer_step_frame max_sets new_bits timestamp p Hpc Hd)
    as [[Hshort _]|(_ & hot & rest & Hget & Hstep & Hdec & Hrange & _ & Hrest)].
  { rewrite length_app, length_fmap in Hshort. lia. }
  exists hot, rest. split; [done|]. split; [done|]. split; [done|].
  split; [|done].
  destruct (hotbits_loop_chunks
              (S (length (p_bits p ++ (bit_char <$> new_bits)))) 24
              (p_bits p ++ (bit_char <$> new_bits)) [])
    as (ints & Hget' & Hcount & _); [lia | | lia |].
  { by rewrite all_digits_app, Hd, all_digits_bit_chars. }
  fold (get_hotbits 24 (p_bits p ++ (bit_char <$> new_bits))) in Hget'.
  rewrite Hget in Hget'. inversion Hget'; subst.
  by rewrite length_app, length_fmap in Hcount.
Qed.

Lemma producer_step_saves_witness :
  ∃ hotbits rest,
    producer_step 2 (Frame (replicate 2400 true) "20240101_000002")
      producer_ready
      = (Enqueued (set_filename "20240101_000002") hotbits,
         mkProducer (save_to_file "20240101_000002" hotbits ∅) rest AtPoll)
    ∧ length hotbits ≤ 100.
Proof.
  destruct (producer_step_saves 2 (replicate 2400 true)
              "20240101_000002" producer_ready)
    as (hot & rest & H1 & _ & _ & H2 & _);
    [reflexivity | reflexivity | vm_compute; lia |].
  exists hot, rest. split; [exact H1 | exact H2].
Defined.

(** X21: the sets of the directory keep their format.  Whatever producer
    and consumer do, a file of the directory is a file that was there at
    the start, unchanged, or a set of integers within [1, 2^24 - 1] written
    by the producer. *)
Theorem directory_keeps_format (max_sets : Z) (p0 p : Producer) :
  all_digits (p_bits p0) = true →
  reachable max_sets p0 p →
  ∀ f c, p_dir p !! f = Some c → p_dir p0 !! f = Some c ∨ is_entropy_set c.
Proof.
  intros Hd0 Hreach.
  induction Hreach as [|p p' Hreach IH Hstep]; [by left|].
  pose proof (reachable_digits max_sets p0 p Hd0 Hreach) as Hd.
  inversion Hstep as [i q|w q Hfs]; subst.
  - destruct (p_pc p) eqn:Hpc.
    + unfold producer_step. rewrite Hpc. by destruct (_ >=? _)%Z.
    + destruct i as [nb ts|]; [|unfold producer_step; by rewrite Hpc].
      destruct (producer_step_frame max_sets nb ts p Hpc Hd)
        as [[_ ->]|(_ & hot & rest & _ & -> & _ & Hrange & _)]; simpl; [done|].
      intros f c. unfold save_to_file.
      intros [[<- <-]|[_ Hf]]%lookup_insert_Some; [|by apply IH].
      right. by exists hot.
    + unfold producer_step. by rewrite Hpc.
  - simpl. intros f c Hf. apply IH.
    eapply lookup_weaken; [exact Hf|]. rewrite <- Hfs.
    apply load_next_file_shrinks.
Qed.

Lemma directory_keeps_format_witness :
  dir_two !! "hotbits_20240101_000001.json"%string = Some (IntegerList [JInt 7])
  ∨ is_entropy_set (IntegerList [JInt 7]).
Proof.
  apply (directory_keeps_format 2 producer_full producer_full);
    [reflexivity | apply reach_start | reflexivity].
Defined.

(** ** Sets in the format, read back *)

Lemma format_in_range z :
  (0 < z < 2 ^ 24)%Z →
  length (format_024b z) = 24 ∧ all_digits (format_024b z) = true.
Proof.
  intros Hz. split; [|apply all_digits_format; lia].
  pose proof (bit_length_le z 24 ltac:(lia)) as Hle.
  destruct z as [|p|p]; [lia | | lia]. simpl in *.
  rewrite length_zero_pad, length_bin_pos. lia.
Qed.

Lemma hotbits_loop_formatted fuel ints acc :
  Forall (λ z, (0 < z < 2 ^ 24)%Z) ints → length ints < fuel →
  hotbits_loop fuel 24 (concat (format_024b <$> ints)) acc
    = PDone (acc ++ ints) [].
Proof.
  intros Hall. revert fuel acc.
  induction Hall as [|z ints Hz _ IH]; intros fuel acc Hfuel;
    (destruct fuel as [|fuel]; [simpl in Hfuel; lia|]); rewrite hotbits_loop_S.
  - simpl. by rewrite app_nil_r.
  - destruct (format_in_range z Hz) as [Hlen Hd].
    rewrite fmap_cons, concat_cons, length_app, Hlen.
    replace (24 <=? 24 + _) with true by (symmetry; apply Nat.leb_le; lia).
    rewrite (take_app_length' _ _ 24 (eq_sym Hlen)),
      (drop_app_length' _ _ 24 (eq_sym Hlen)).
    assert (Hint : int_base2 (format_024b z) = Some z).
    { destruct z as [|p|p]; [lia | | lia]. simpl.
      rewrite int_base2_digits
        by (apply all_digits_zero_pad || apply zero_pad_nonempty).
      unfold zero_pad. by rewrite digits_val_zeros, digits_val_bin_pos. }
    rewrite Hint. destruct (z =? 0)%Z eqn:E; [lia|].
    rewrite IH by (simpl in Hfuel; lia). by rewrite <- app_assoc.
Qed.

(** X22: a set in the format decodes to 24 bits for each of its integers,
    all of them digits, and cutting those bits into 24-bit chunks gives the
    set back, nothing left over. *)
Theorem encode_decode_set (ints : list Z) :
  Forall (λ z, (0 < z < 2 ^ 24)%Z) ints →
  decode ints = (concat (format_024b <$> ints), true) ∧
  length (concat (format_024b <$> ints)) = 24 * length ints ∧
  all_digits (concat (format_024b <$> ints)) = true ∧
  get_hotbits 24 (concat (format_024b <$> ints)) = PDone ints [].
Proof.
  intros Hall. split; [unfold decode; by rewrite decode_items_ints|].
  assert (Hlen : length (concat (format_024b <$> ints)) = 24 * length ints
                 ∧ all_digits (concat (format_024b <$> ints)) = true).
  { induction Hall as [|z ints Hz _ [IH1 IH2]]; [done|].
    destruct (format_in_range z Hz) as [Hl Hd].
    rewrite fmap_cons, concat_cons, length_app, all_digits_app, Hl, Hd, IH1, IH2.
    simpl length. split; [lia | done]. }
  destruct Hlen as [Hlen Hd]. split; [done|]. split; [done|].
  unfold get_hotbits. rewrite (hotbits_loop_formatted _ ints []); [done..|].
  rewrite Hlen. lia.
Qed.

Lemma encode_decode_set_witness :
  get_hotbits 24 (concat (format_024b <$> [5; 10]%Z)) = PDone [5; 10]%Z [].
Proof.
  apply (encode_decode_set [5; 10]%Z).
  repeat constructor; vm_compute; congruence.
Defined.

(** ** Draws that are accepted *)

(** X23: [randint(a, b)] over a range that is not empty draws
    [bit_length(b - a + 1)] bits at a time; on a buffer that starts with
    draws outside [a, b] and then one within, it returns that one and has
    consumed exactly those draws. *)
Theorem randint_accepts (a b : Z) (rejected : list (list bchar))
    (chunk rest : list bchar) (w : World) :
  (a ≤ b)%Z →
  let k := bit_length (b - a + 1) in
  Forall (λ c, length c = k ∧ all_digits c = true
               ∧ ¬ (a ≤ digits_val c ≤ b)%Z) rejected →
  length chunk = k → all_digits chunk = true →
  (a ≤ digits_val chunk ≤ b)%Z →
  current_bits w = concat rejected ++ chunk ++ rest →
  randint (S (length rejected)) a b w
    = Ok (digits_val chunk) (set_bits w rest).
Proof.
  intros Hab k Hrej Hlen Hd Hin Hbits. unfold randint, py_pow2. fold k.
  assert (Hk : k ≠ 0).
  { unfold k. destruct (b - a + 1)%Z as [|p|p] eqn:E; [lia | | lia].
    simpl. destruct p; simpl; lia. }
  destruct (Z.of_nat k - 1 <? 0)%Z eqn:E; [lia|].
  destruct k as [|n] eqn:Hkn; [done|].
  replace (Z.of_nat (S n) - 1)%Z with (Z.of_nat n) by lia.
  apply randint_loop_accepts; rewrite ?bit_length_pow2; done.
Qed.

Lemma randint_accepts_witness :
  randint 2 1 100 (world_of_bits
                     ([c1; c1; c1; c1; c1; c1; c1] ++ [c0; c1; c0; c1; c0; c1; c0] ++ [c1]))
    = Ok 42%Z (set_bits (world_of_bits []) [c1]).
Proof.
  apply (randint_accepts 1 100 [[c1; c1; c1; c1; c1; c1; c1]]
           [c0; c1; c0; c1; c0; c1; c0] [c1]
           (world_of_bits ([c1; c1; c1; c1; c1; c1; c1]
                           ++ [c0; c1; c0; c1; c0; c1; c0] ++ [c1])));
    try reflexivity.
  - vm_compute. discriminate.
  - apply Forall_singleton. split; [reflexivity|]. split; [reflexivity|].
    vm_compute. intros [_ H]. by apply H.
  - vm_compute. split; discriminate.
Defined.
